(** * FocusFlow pomodoro timer: a shallow embedding of [PomodoroTimer.tsx]

    The component keeps its whole state in React [useState] cells and changes
    it from event handlers and from one interval callback.  Every handler is
    embedded as a function on an explicit [State] record; the interval
    callback ([tick]) and the completion handler also return the list of
    observable events they produce (the call of [handleTimerComplete] and the
    call of [audio.play()]).  State updaters run once per update, as in a
    production build of React.  The interval callback is a closure of the
    render that installed it: the state carries the values it holds, and
    they are replaced when the interval effect runs again, after a change
    of [isActive] or [time].  [localStorage] is a finite map from strings
    to strings, and [JSON.stringify] / [JSON.parse] are embedded after
    ECMAScript for the values the component stores. *)

From Stdlib Require Import ZArith Lia.
From stdpp Require Import base decidable option list strings gmap.

Local Open Scope Z_scope.

(** ** JavaScript values used by the component *)

Module JS.

(** The numbers the component computes with are integers, or [NaN] when
    [parseInt] finds no digit.  A JavaScript number is a double: it holds
    every integer up to 2^53 either way, and the model is of these; the
    rounding of larger integers is outside it. *)
Inductive number : Set :=
| NaN
| Int (z : Z).

(** The integers between [Number.MIN_SAFE_INTEGER - 1] and
    [Number.MAX_SAFE_INTEGER + 1], which a double holds without rounding. *)
Definition exact (z : Z) : Prop := Z.abs z <= 2 ^ 53.

#[global] Instance number_eq_dec : EqDecision number.
Proof. solve_decision. Defined.

(** [x === 0] *)
Definition is_zero (x : number) : bool :=
  match x with
  | Int z => z =? 0
  | NaN => false
  end.

(** [x - 1] *)
Definition pred (x : number) : number :=
  match x with
  | Int z => Int (z - 1)
  | NaN => NaN
  end.


(** A string is its sequence of UTF-16 code units. *)
Definition str : Set := list N.

(** ASCII literals. *)
Definition lit (s : string) : str :=
  map Ascii.N_of_ascii (String.list_ascii_of_string s).

(** WhiteSpace and LineTerminator code points of ECMAScript: what
    [String.prototype.trim] and [parseInt] strip. *)
Definition is_space (c : N) : bool :=
  ((9 <=? c) && (c <=? 13) || (c =? 32) || (c =? 160) || (c =? 5760)
   || (8192 <=? c) && (c <=? 8202) || (c =? 8232) || (c =? 8233)
   || (c =? 8239) || (c =? 8287) || (c =? 12288) || (c =? 65279))%N.

Fixpoint trimStart (s : str) : str :=
  match s with
  | c :: r => if is_space c then trimStart r else s
  | [] => []
  end.

Definition trimEnd (s : str) : str := rev (trimStart (rev s)).

(** [s.trim()] *)
Definition trim (s : str) : str := trimEnd (trimStart s).

(** Truthiness of a string: every string but the empty one. *)
Definition truthy (s : str) : bool :=
  match s with
  | [] => false
  | _ :: _ => true
  end.

(** Value of a code unit as a digit of the given radix (10 or 16). *)
Definition digit (radix : Z) (c : N) : option Z :=
  let v :=
    if ((48 <=? c) && (c <=? 57))%N then Z.of_N c - 48
    else if ((97 <=? c) && (c <=? 122))%N then Z.of_N c - 87
    else if ((65 <=? c) && (c <=? 90))%N then Z.of_N c - 55
    else radix in
  if v <? radix then Some v else None.

(** Value of the longest prefix of digits; [acc] is [None] as long as no
    digit has been read. *)
Fixpoint digits (radix : Z) (acc : option Z) (s : str) : option Z :=
  match s with
  | c :: r =>
      match digit radix c with
      | Some d => digits radix (Some (default 0 acc * radix + d)) r
      | None => acc
      end
  | [] => acc
  end.

(** [parseInt(s)] with no radix argument: leading white space, an optional
    sign, an optional [0x]/[0X] prefix that selects radix 16, then the
    longest prefix of digits; [NaN] when that prefix is empty.  The result
    is the integer the digits denote, which is what the code yields while
    that integer is [exact]; beyond, the code rounds it to a double. *)
Definition parseInt (s : str) : number :=
  let s1 := trimStart s in
  let '(sign, s2) :=
    match s1 with
    | 45%N :: r => (-1, r)
    | 43%N :: r => (1, r)
    | _ => (1, s1)
    end in
  let '(radix, s3) :=
    match s2 with
    | 48%N :: x :: r =>
        if ((x =? 120) || (x =? 88))%N then (16, r) else (10, s2)
    | _ => (10, s2)
    end in
  match digits radix None s3 with
  | Some v => Int (sign * v)
  | None => NaN
  end.

End JS.

(** ** Data model *)

Inductive TimerType : Set :=
| work
| shortBreak
| longBreak.

#[global] Instance TimerType_eq_dec : EqDecision TimerType.
Proof. solve_decision. Defined.

Record Task : Set := mkTask {
  id : Z;
  text : JS.str;
  completed : bool;
  pomodoros : Z
}.

#[global] Instance Task_eq_dec : EqDecision Task.
Proof. solve_decision. Defined.

(** [interface TimerSettings]: minutes per timer type.  The fields carry the
    names of the keys; they live in a module of their own because the keys
    are also the values of [TimerType]. *)
Module TimerSettings.
Record t : Set := mk {
  work : JS.number;
  shortBreak : JS.number;
  longBreak : JS.number
}.
End TimerSettings.

(** [timerSettings[type]] *)
Definition get_setting (cfg : TimerSettings.t) (type : TimerType) : JS.number :=
  match type with
  | work => TimerSettings.work cfg
  | shortBreak => TimerSettings.shortBreak cfg
  | longBreak => TimerSettings.longBreak cfg
  end.

(** [{ ...timerSettings, [key]: v }] *)
Definition put_setting (cfg : TimerSettings.t) (key : TimerType) (v : JS.number)
  : TimerSettings.t :=
  match key with
  | work => TimerSettings.mk v (TimerSettings.shortBreak cfg) (TimerSettings.longBreak cfg)
  | shortBreak => TimerSettings.mk (TimerSettings.work cfg) v (TimerSettings.longBreak cfg)
  | longBreak => TimerSettings.mk (TimerSettings.work cfg) (TimerSettings.shortBreak cfg) v
  end.

(** The [time] cell.  [seconds] only ever holds [0], [59] or a predecessor
    of its earlier value, so it is an integer; [minutes] is copied from the
    settings and can be [NaN]. *)
Record Time : Set := mkTime {
  minutes : JS.number;
  seconds : Z
}.

(** What the callback of the interval closes over.  The effect that installs
    the interval has the dependencies [[isActive, time]] (line 96): the
    callback, and the [handleTimerComplete] it calls, belong to the render
    in which [isActive] or [time] last changed and read [timerType],
    [timerSettings] and [isMuted] as they were in that render. *)
Record Closure : Set := mkClosure {
  closedType : TimerType;
  closedSettings : TimerSettings.t;
  closedMuted : bool
}.

(** The [useState] cells the handlers read and write, and with them what the
    interval holds ([interval], which is no cell and which no handler
    writes).  ([showSettings] and [showStats] only select what is rendered
    and are left out.) *)
Record State : Set := mkState {
  time : Time;
  isActive : bool;
  timerType : TimerType;
  tasks : list Task;
  newTask : JS.str;
  completedPomodoros : Z;
  timerSettings : TimerSettings.t;
  isMuted : bool;
  interval : Closure
}.

Definition setTime (v : Time) (s : State) : State :=
  mkState v (isActive s) (timerType s) (tasks s) (newTask s)
          (completedPomodoros s) (timerSettings s) (isMuted s) (interval s).

Definition setIsActive (v : bool) (s : State) : State :=
  mkState (time s) v (timerType s) (tasks s) (newTask s)
          (completedPomodoros s) (timerSettings s) (isMuted s) (interval s).

Definition setTimerType (v : TimerType) (s : State) : State :=
  mkState (time s) (isActive s) v (tasks s) (newTask s)
          (completedPomodoros s) (timerSettings s) (isMuted s) (interval s).

Definition setTasks (v : list Task) (s : State) : State :=
  mkState (time s) (isActive s) (timerType s) v (newTask s)
          (completedPomodoros s) (timerSettings s) (isMuted s) (interval s).

Definition setNewTask (v : JS.str) (s : State) : State :=
  mkState (time s) (isActive s) (timerType s) (tasks s) v
          (completedPomodoros s) (timerSettings s) (isMuted s) (interval s).

Definition setCompletedPomodoros (v : Z) (s : State) : State :=
  mkState (time s) (isActive s) (timerType s) (tasks s) (newTask s)
          v (timerSettings s) (isMuted s) (interval s).

Definition setTimerSettings (v : TimerSettings.t) (s : State) : State :=
  mkState (time s) (isActive s) (timerType s) (tasks s) (newTask s)
          (completedPomodoros s) v (isMuted s) (interval s).

Definition setIsMuted (v : bool) (s : State) : State :=
  mkState (time s) (isActive s) (timerType s) (tasks s) (newTask s)
          (completedPomodoros s) (timerSettings s) v (interval s).

(** The values a render has for the callback it installs. *)
Definition snapshot (s : State) : Closure :=
  mkClosure (timerType s) (timerSettings s) (isMuted s).

(** The interval effect runs again after a render in which [isActive] or
    [time] has changed: the interval is cleared and, while [isActive], set
    anew with the callback of that render.  (While [isActive] is false there
    is no interval and [interval] is not read.) *)
Definition installInterval (s : State) : State :=
  mkState (time s) (isActive s) (timerType s) (tasks s) (newTask s)
          (completedPomodoros s) (timerSettings s) (isMuted s) (snapshot s).

(** The initial values of the cells. *)
Definition defaultSettings : TimerSettings.t :=
  TimerSettings.mk (JS.Int 25) (JS.Int 5) (JS.Int 15).

Definition initial : State :=
  mkState (mkTime (JS.Int 25) 0) false work [] [] 0 defaultSettings false
          (mkClosure work defaultSettings false).

(** ** The session clock *)

(** What the environment can observe of a completion. *)
Inductive Event : Set :=
| SessionCompleted (kind : TimerType)   (* [handleTimerComplete] is called *)
| Notified.                             (* [audioRef.current.play()] *)

#[global] Instance Event_eq_dec : EqDecision Event.
Proof. solve_decision. Defined.

(** [switchTimer(type)] *)
Definition switchTimer (type : TimerType) (s : State) : State :=
  setTime (mkTime (get_setting (timerSettings s) type) 0) (setTimerType type s).

(** [handleTimerComplete()] of the render with the values [c], called while
    the cells are [s].  [isMuted], [timerType] and the [timerSettings] that
    its [switchTimer] reads are those of [c]; the counter is updated from
    its current value ([prev => prev + 1]); the other setters write values
    that do not depend on the cells.  It runs from the interval callback,
    after the component is mounted, so [audioRef.current] is the rendered
    [<audio>] element and the sound is gated by [isMuted] alone. *)
Definition handleTimerCompleteOf (c : Closure) (s : State) : State * list Event :=
  let s1 := setIsActive false s in
  let sound := if negb (closedMuted c) then [Notified] else [] in
  let s2 :=
    match closedType c with
    | work => setCompletedPomodoros (completedPomodoros s1 + 1) s1
    | _ => s1
    end in
  let next := match closedType c with work => shortBreak | _ => work end in
  (setTime (mkTime (get_setting (closedSettings c) next) 0) (setTimerType next s2),
   SessionCompleted (closedType c) :: sound).

(** [handleTimerComplete()] called in the render it belongs to. *)
Definition handleTimerComplete (s : State) : State * list Event :=
  handleTimerCompleteOf (snapshot s) s.

(** One firing of the interval.  The interval exists only while [isActive];
    its callback passes [time] through the updater of lines 77-87.  In the
    branch that completes the session the updater returns [prevTime], and
    the updates queued by the [handleTimerComplete] the callback holds
    (among them the [setTime] of its [switchTimer]) are applied after it.
    Every firing replaces [time], so the interval effect runs again in the
    render that follows. *)
Definition tick (s : State) : State * list Event :=
  if isActive s then
    let prevTime := time s in
    if seconds prevTime =? 0 then
      if JS.is_zero (minutes prevTime) then
        let '(s1, es) := handleTimerCompleteOf (interval s) (setTime prevTime s) in
        (installInterval s1, es)
      else
        (installInterval (setTime (mkTime (JS.pred (minutes prevTime)) 59) s), [])
    else
      (installInterval (setTime (mkTime (minutes prevTime) (seconds prevTime - 1)) s), [])
  else (s, []).

(** [n] firings in a row, with the events in the order they occur. *)
Fixpoint ticks (n : nat) (s : State) : State * list Event :=
  match n with
  | O => (s, [])
  | S k =>
      let '(s1, e1) := tick s in
      let '(s2, e2) := ticks k s1 in
      (s2, e1 ++ e2)
  end.

(** The state after [n] firings of a running timer have been rendered: the
    cells, and from the first firing on an interval installed by the last
    render. *)
Definition reinstalled (n : nat) (s : State) : State :=
  match n with
  | O => s
  | S _ => installInterval s
  end.

(** [toggleTimer()]: the handler of the one Start/Pause button. *)
Definition toggleTimer (s : State) : State := setIsActive (negb (isActive s)) s.

(** [resetTimer()] *)
Definition resetTimer (s : State) : State :=
  setTime (mkTime (get_setting (timerSettings s) (timerType s)) 0)
          (setIsActive false s).

(** The seconds a [time] value stands for. *)
Definition remainingSeconds (t : Time) : JS.number :=
  match minutes t with
  | JS.Int m => JS.Int (m * 60 + seconds t)
  | JS.NaN => JS.NaN
  end.

(** Number of completion events, and of sounds played, in a trace. *)
Definition is_completion (e : Event) : bool :=
  match e with
  | SessionCompleted _ => true
  | Notified => false
  end.

Definition completions (es : list Event) : nat :=
  length (List.filter is_completion es).

Definition notifications (es : list Event) : nat :=
  length (List.filter (fun e => negb (is_completion e)) es).

(** ** The task ledger *)

(** The [onChange] of the text field: [setNewTask(e.target.value)]. *)
Definition onChangeNewTask (value : JS.str) (s : State) : State :=
  setNewTask value s.

(** [addTask()]; [now] is the value [Date.now()] returns at the call. *)
Definition addTask (now : Z) (s : State) : State :=
  if JS.truthy (JS.trim (newTask s)) then
    setNewTask [] (setTasks (tasks s ++ [mkTask now (newTask s) false 0]) s)
  else s.

(** [toggleTaskCompletion(id)] *)
Definition toggleTaskCompletion (i : Z) (s : State) : State :=
  setTasks
    (map (fun task =>
            if id task =? i
            then mkTask (id task) (text task) (negb (completed task)) (pomodoros task)
            else task)
         (tasks s)) s.

(** [incrementTaskPomodoros(id)] *)
Definition incrementTaskPomodoros (i : Z) (s : State) : State :=
  setTasks
    (map (fun task =>
            if id task =? i
            then mkTask (id task) (text task) (completed task) (pomodoros task + 1)
            else task)
         (tasks s)) s.

(** [removeTask(id)] *)
Definition removeTask (i : Z) (s : State) : State :=
  setTasks (List.filter (fun task => negb (id task =? i)) (tasks s)) s.

(** The ids of a task list, in order. *)
Definition ids (ts : list Task) : list Z := map id ts.

(** ** The settings panel *)

(** The [onChange] of the number field of [key]:
    [setTimerSettings({ ...timerSettings, [key]: parseInt(e.target.value) })]. *)
Definition onChangeSetting (key : TimerType) (value : JS.str) (s : State) : State :=
  setTimerSettings (put_setting (timerSettings s) key (JS.parseInt value)) s.


(** The mute button: [setIsMuted(!isMuted)]. *)
Definition toggleMute (s : State) : State := setIsMuted (negb (isMuted s)) s.

(** ** Runs of the component *)

(** What can happen to the mounted component: the interval fires, or the
    user uses one of the controls. *)
Inductive Action : Set :=
| Tick
| ToggleTimer
| SwitchTimer (type : TimerType)
| ResetTimer
| ChangeNewTask (value : JS.str)
| AddTask (now : Z)
| ToggleTaskCompletion (i : Z)
| IncrementTaskPomodoros (i : Z)
| RemoveTask (i : Z)
| ChangeSetting (key : TimerType) (value : JS.str)
| ToggleMute.

(** One action and the render that follows it.  The start/pause button
    changes [isActive], and [switchTimer] and [resetTimer] write a new
    [time] object, so after them the interval effect runs again; after the
    other controls it does not, and the interval keeps the callback it
    has. *)
Definition step (a : Action) (s : State) : State * list Event :=
  match a with
  | Tick => tick s
  | ToggleTimer => (installInterval (toggleTimer s), [])
  | SwitchTimer type => (installInterval (switchTimer type s), [])
  | ResetTimer => (installInterval (resetTimer s), [])
  | ChangeNewTask value => (onChangeNewTask value s, [])
  | AddTask now => (addTask now s, [])
  | ToggleTaskCompletion i => (toggleTaskCompletion i s, [])
  | IncrementTaskPomodoros i => (incrementTaskPomodoros i s, [])
  | RemoveTask i => (removeTask i s, [])
  | ChangeSetting key value => (onChangeSetting key value s, [])
  | ToggleMute => (toggleMute s, [])
  end.

Fixpoint run (acts : list Action) (s : State) : State * list Event :=
  match acts with
  | [] => (s, [])
  | a :: rest =>
      let '(s1, e1) := step a s in
      let '(s2, e2) := run rest s1 in
      (s2, e1 ++ e2)
  end.

(** Completions of work sessions in a trace. *)
Definition is_work_completion (e : Event) : bool :=
  match e with
  | SessionCompleted work => true
  | _ => false
  end.

Definition work_completions (es : list Event) : nat :=
  length (List.filter is_work_completion es).

(** ** JSON text *)

Module JSON.

#[local] Set Warnings "-register-all".

Local Open Scope N_scope.

(** A JSON text as [JSON.parse] reads it.  An object is kept as its members
    in the order of the text; a number is an integer (a literal with a
    fraction or an exponent is outside this model). *)
Inductive value : Set :=
| Null
| Bool (b : bool)
| Num (z : Z)
| Str (s : JS.str)
| Arr (elements : list value)
| Obj (members : list (JS.str * value)).

(** Induction on values that reaches the elements of arrays and the values
    of members. *)
Section ValueInd.
Variable P : value -> Prop.
Hypothesis HNull : P Null.
Hypothesis HBool : forall b, P (Bool b).
Hypothesis HNum : forall z, P (Num z).
Hypothesis HStr : forall s, P (Str s).
Hypothesis HArr : forall vs, Forall P vs -> P (Arr vs).
Hypothesis HObj : forall ms, Forall (fun m => P (snd m)) ms -> P (Obj ms).

Fixpoint value_ind' (v : value) : P v :=
  match v with
  | Null => HNull
  | Bool b => HBool b
  | Num z => HNum z
  | Str s => HStr s
  | Arr vs =>
      HArr vs ((fix all (l : list value) : Forall P l :=
                  match l with
                  | [] => List.Forall_nil P
                  | x :: r => List.Forall_cons P x r (value_ind' x) (all r)
                  end) vs)
  | Obj ms =>
      HObj ms ((fix all (l : list (JS.str * value)) : Forall (fun m => P (snd m)) l :=
                  match l with
                  | [] => List.Forall_nil _
                  | x :: r => List.Forall_cons _ x r (value_ind' (snd x)) (all r)
                  end) ms)
  end.
End ValueInd.

(** *** Writing *)

(** The decimal digits of [n], most significant first. *)
Fixpoint digits_of (fuel : nat) (n : N) : JS.str :=
  match fuel with
  | O => []
  | S f =>
      if n <? 10 then [48 + n]
      else digits_of f (n / 10) ++ [48 + n mod 10]
  end.

(** [Number.prototype.toString] on an integer below 10^21. *)
Definition print_num (z : Z) : JS.str :=
  let n := Z.abs_N z in
  let ds := digits_of (S (N.to_nat (N.log2 n))) n in
  if (z <? 0)%Z then 45 :: ds else ds.

Definition hexchar (d : N) : N := if d <? 10 then 48 + d else 87 + d.

(** The four lower-case hexadecimal digits of a code unit. *)
Definition hex4 (c : N) : JS.str :=
  [hexchar (c / 4096); hexchar ((c / 256) mod 16);
   hexchar ((c / 16) mod 16); hexchar (c mod 16)].

Definition is_lead (c : N) : bool := (55296 <=? c) && (c <=? 56319).
Definition is_trail (c : N) : bool := (56320 <=? c) && (c <=? 57343).

(** One code unit inside a string literal, when it is not part of a
    surrogate pair (QuoteJSONString). *)
Definition escape (c : N) : JS.str :=
  if c =? 8 then [92; 98]
  else if c =? 9 then [92; 116]
  else if c =? 10 then [92; 110]
  else if c =? 12 then [92; 102]
  else if c =? 13 then [92; 114]
  else if c =? 34 then [92; 34]
  else if c =? 92 then [92; 92]
  else if (c <? 32) || is_lead c || is_trail c then 92 :: 117 :: hex4 c
  else [c].

Fixpoint quote_chars (s : JS.str) : JS.str :=
  match s with
  | [] => []
  | h :: t =>
      match t with
      | l :: r =>
          if is_lead h && is_trail l then h :: l :: quote_chars r
          else escape h ++ quote_chars t
      | [] => escape h
      end
  end.

Definition quote (s : JS.str) : JS.str := 34 :: quote_chars s ++ [34].

(** The texts of the elements of an array, or of the members of an object,
    with commas between them. *)
Fixpoint join_comma (parts : list JS.str) : JS.str :=
  match parts with
  | [] => []
  | p :: rest =>
      match rest with
      | [] => p
      | _ :: _ => p ++ 44 :: join_comma rest
      end
  end.

(** [JSON.stringify(v)] with no indentation. *)
Fixpoint stringify (v : value) : JS.str :=
  match v with
  | Null => JS.lit "null"
  | Bool true => JS.lit "true"
  | Bool false => JS.lit "false"
  | Num z => print_num z
  | Str s => quote s
  | Arr vs => 91 :: join_comma (map stringify vs) ++ [93]
  | Obj ms =>
      123 :: join_comma (map (fun m => quote (fst m) ++ 58 :: stringify (snd m)) ms)
          ++ [125]
  end.

(** *** Reading *)

(** JSON white space: space, tab, line feed, carriage return. *)
Definition is_ws (c : N) : bool :=
  (c =? 32) || (c =? 9) || (c =? 10) || (c =? 13).

Fixpoint skip_ws (s : JS.str) : JS.str :=
  match s with
  | c :: r => if is_ws c then skip_ws r else s
  | [] => []
  end.

Fixpoint strip_prefix (p s : JS.str) : option JS.str :=
  match p, s with
  | [], _ => Some s
  | a :: p', b :: s' => if a =? b then strip_prefix p' s' else None
  | _ :: _, [] => None
  end.

Definition hexval (c : N) : option N :=
  if (48 <=? c) && (c <=? 57) then Some (c - 48)
  else if (97 <=? c) && (c <=? 102) then Some (c - 87)
  else if (65 <=? c) && (c <=? 70) then Some (c - 55)
  else None.

Definition unhex4 (a b c d : N) : option N :=
  match hexval a, hexval b, hexval c, hexval d with
  | Some x, Some y, Some z, Some w => Some (((x * 16 + y) * 16 + z) * 16 + w)
  | _, _, _, _ => None
  end.

(** The characters of a string literal, after its opening quote, up to and
    including its closing quote. *)
Fixpoint parse_chars (s : JS.str) : option (JS.str * JS.str) :=
  match s with
  | [] => None
  | c :: r =>
      if c =? 34 then Some ([], r)
      else if c =? 92 then
        match r with
        | [] => None
        | e :: r1 =>
            let simple (x : N) :=
              match parse_chars r1 with
              | Some (t, rest) => Some (x :: t, rest)
              | None => None
              end in
            if e =? 34 then simple 34
            else if e =? 92 then simple 92
            else if e =? 47 then simple 47
            else if e =? 98 then simple 8
            else if e =? 102 then simple 12
            else if e =? 110 then simple 10
            else if e =? 114 then simple 13
            else if e =? 116 then simple 9
            else if e =? 117 then
              match r1 with
              | h1 :: h2 :: h3 :: h4 :: r2 =>
                  match unhex4 h1 h2 h3 h4, parse_chars r2 with
                  | Some x, Some (t, rest) => Some (x :: t, rest)
                  | _, _ => None
                  end
              | _ => None
              end
            else None
        end
      else if c <? 32 then None
      else
        match parse_chars r with
        | Some (t, rest) => Some (c :: t, rest)
        | None => None
        end
  end.

Definition is_digit (c : N) : bool := (48 <=? c) && (c <=? 57).

Fixpoint parse_digits (acc : N) (s : JS.str) : N * JS.str :=
  match s with
  | c :: r => if is_digit c then parse_digits (acc * 10 + (c - 48)) r else (acc, s)
  | [] => (acc, [])
  end.

(** An integer literal: an optional minus, then [0] or a digit from 1 to 9
    followed by digits.  A fraction or an exponent behind it is refused. *)
Definition parse_number (s : JS.str) : option (Z * JS.str) :=
  let '(neg, s1) :=
    match s with
    | c :: r => if c =? 45 then (true, r) else (false, s)
    | [] => (false, s)
    end in
  match s1 with
  | [] => None
  | c :: r =>
      if is_digit c then
        let '(n, rest) := if c =? 48 then (0, r) else parse_digits (c - 48) r in
        let z := if neg then (- Z.of_N n)%Z else Z.of_N n in
        match rest with
        | d :: _ => if (d =? 46) || (d =? 101) || (d =? 69) then None else Some (z, rest)
        | [] => Some (z, rest)
        end
      else None
  end.

(** One value, with the white space in front of it; the rest of the text is
    returned with it.  [fuel] bounds the nesting of calls. *)
Fixpoint parse_value (fuel : nat) (s : JS.str) : option (value * JS.str) :=
  match fuel with
  | O => None
  | S f =>
      match skip_ws s with
      | [] => None
      | c :: r =>
          if c =? 34 then
            match parse_chars r with
            | Some (t, rest) => Some (Str t, rest)
            | None => None
            end
          else if c =? 91 then
            match skip_ws r with
            | 93 :: rest => Some (Arr [], rest)
            | _ =>
                match parse_elements f r with
                | Some (vs, rest) => Some (Arr vs, rest)
                | None => None
                end
            end
          else if c =? 123 then
            match skip_ws r with
            | 125 :: rest => Some (Obj [], rest)
            | _ =>
                match parse_members f r with
                | Some (ms, rest) => Some (Obj ms, rest)
                | None => None
                end
            end
          else if c =? 110 then
            match strip_prefix (JS.lit "ull") r with
            | Some rest => Some (Null, rest)
            | None => None
            end
          else if c =? 116 then
            match strip_prefix (JS.lit "rue") r with
            | Some rest => Some (Bool true, rest)
            | None => None
            end
          else if c =? 102 then
            match strip_prefix (JS.lit "alse") r with
            | Some rest => Some (Bool false, rest)
            | None => None
            end
          else
            match parse_number (c :: r) with
            | Some (z, rest) => Some (Num z, rest)
            | None => None
            end
      end
  end

(** The elements of an array behind its [[], up to and including its []]. *)
with parse_elements (fuel : nat) (s : JS.str) : option (list value * JS.str) :=
  match fuel with
  | O => None
  | S f =>
      match parse_value f s with
      | None => None
      | Some (v, s1) =>
          match skip_ws s1 with
          | c :: r =>
              if c =? 93 then Some ([v], r)
              else if c =? 44 then
                match parse_elements f r with
                | Some (vs, rest) => Some (v :: vs, rest)
                | None => None
                end
              else None
          | [] => None
          end
      end
  end

(** The members of an object behind its [{], up to and including its [}]. *)
with parse_members (fuel : nat) (s : JS.str) : option (list (JS.str * value) * JS.str) :=
  match fuel with
  | O => None
  | S f =>
      match skip_ws s with
      | 34 :: s0 =>
          match parse_chars s0 with
          | None => None
          | Some (k, s1) =>
              match skip_ws s1 with
              | 58 :: s2 =>
                  match parse_value f s2 with
                  | None => None
                  | Some (v, s3) =>
                      match skip_ws s3 with
                      | c :: r =>
                          if c =? 125 then Some ([(k, v)], r)
                          else if c =? 44 then
                            match parse_members f r with
                            | Some (ms, rest) => Some ((k, v) :: ms, rest)
                            | None => None
                            end
                          else None
                      | [] => None
                      end
                  end
              | _ => None
              end
          end
      | _ => None
      end
  end.

(** [JSON.parse(text)]; [None] stands for the [SyntaxError] it throws. *)
Definition parse (text : JS.str) : option value :=
  match parse_value (2 * length text + 2) text with
  | Some (v, rest) =>
      match skip_ws rest with
      | [] => Some v
      | _ :: _ => None
      end
  | None => None
  end.

(** *** Notions used to state the round trip *)

(** The number a run of digits stands for, continuing from [acc]. *)
Definition val_digits (acc : N) (ds : JS.str) : N :=
  fold_left (fun a c => a * 10 + (c - 48)) ds acc.

(** What may follow a value inside a text: nothing, a comma, or a closing
    bracket or brace. *)
Definition delimited (rest : JS.str) : Prop :=
  match rest with
  | [] => True
  | c :: _ => c = 44 \/ c = 93 \/ c = 125
  end.

(** The text of one member of an object. *)
Definition member_text (m : JS.str * value) : JS.str :=
  quote (fst m) ++ 58 :: stringify (snd m).

(** What the round trip of one value says: enough fuel reads it back and
    leaves what follows it. *)
Definition reads_back (v : value) : Prop :=
  forall (f : nat) (rest : JS.str),
    (2 * length (stringify v) <= f)%nat -> delimited rest ->
    parse_value f (stringify v ++ rest) = Some (v, rest).

End JSON.


(** ** Persistence *)

(** The object a task is, as [JSON.stringify] walks it: the four properties
    in the order every task of the component is built with. *)
Definition json_of_task (t : Task) : JSON.value :=
  JSON.Obj [(JS.lit "id", JSON.Num (id t));
            (JS.lit "text", JSON.Str (text t));
            (JS.lit "completed", JSON.Bool (completed t));
            (JS.lit "pomodoros", JSON.Num (pomodoros t))].

Definition json_of_tasks (ts : list Task) : JSON.value :=
  JSON.Arr (map json_of_task ts).

(** Reading property [key] of a parsed object: of two members with the same
    name the later one is the value of the property. *)
Fixpoint property (key : JS.str) (ms : list (JS.str * JSON.value)) : option JSON.value :=
  match ms with
  | [] => None
  | (k, v) :: rest =>
      match property key rest with
      | Some v' => Some v'
      | None => if decide (k = key) then Some v else None
      end
  end.

(** A parsed value seen at the type [Task] / [Task[]] the component gives
    it; [None] when it has another shape. *)
Definition task_of_json (v : JSON.value) : option Task :=
  match v with
  | JSON.Obj ms =>
      match property (JS.lit "id") ms, property (JS.lit "text") ms,
            property (JS.lit "completed") ms, property (JS.lit "pomodoros") ms with
      | Some (JSON.Num i), Some (JSON.Str t), Some (JSON.Bool c), Some (JSON.Num p) =>
          Some (mkTask i t c p)
      | _, _, _, _ => None
      end
  | _ => None
  end.

Definition tasks_of_json (v : JSON.value) : option (list Task) :=
  match v with
  | JSON.Arr vs => mapM task_of_json vs
  | _ => None
  end.

(** [localStorage]: string keys, string values. *)
Abbreviation Storage := (gmap JS.str JS.str).

(** The effect of lines 60-62:
    [localStorage.setItem("pomodoro-tasks", JSON.stringify(tasks))]. *)
Definition saveTasks (s : State) (store : Storage) : Storage :=
  <[JS.lit "pomodoro-tasks" := JSON.stringify (json_of_tasks (tasks s))]> store.

(** The first two lines of the mount effect (49-50), run once:
    [if (savedTasks) setTasks(JSON.parse(savedTasks))].  [None] when
    [JSON.parse] throws or yields something that is no task list. *)
Definition loadTasks (store : Storage) (s : State) : option State :=
  match store !! JS.lit "pomodoro-tasks" with
  | Some savedTasks =>
      if JS.truthy savedTasks then
        match JSON.parse savedTasks with
        | Some v =>
            match tasks_of_json v with
            | Some ts => Some (setTasks ts s)
            | None => None
            end
        | None => None
        end
      else Some s
  | None => Some s
  end.



(** ** The display and the statistics *)

Module Text.

(** [String(x)] and [x.toString()] on a number: [NaN], or the decimal
    digits of an integer, which is what the code writes for every [JS.exact]
    integer (from 10^21 on it writes a mantissa and an exponent). *)
Definition toString (x : JS.number) : JS.str :=
  match x with
  | JS.NaN => JS.lit "NaN"
  | JS.Int z => JSON.print_num z
  end.

(** [s.padStart(targetLength, filler)]: [s] itself when it is long enough or
    the filler is empty; otherwise the filler, repeated and cut to the
    missing length, in front of [s]. *)
Definition padStart (targetLength : nat) (filler s : JS.str) : JS.str :=
  if (targetLength <=? length s)%nat then s
  else
    match filler with
    | [] => s
    | _ :: _ =>
        let fillLen := (targetLength - length s)%nat in
        take fillLen (concat (replicate fillLen filler)) ++ s
    end.

(** [parseInt(s, 10)]: as [parseInt(s)], but the radix is 10 whatever the
    digits begin with. *)
Definition parseInt10 (s : JS.str) : JS.number :=
  let s1 := JS.trimStart s in
  let '(sign, s2) :=
    match s1 with
    | 45%N :: r => (-1, r)
    | 43%N :: r => (1, r)
    | _ => (1, s1)
    end in
  match JS.digits 10 None s2 with
  | Some v => JS.Int (sign * v)
  | None => JS.NaN
  end.

End Text.

(** [formatTime(minutes, seconds)] *)
Definition formatTime (minutes : JS.number) (seconds : JS.number) : JS.str :=
  Text.padStart 2 (JS.lit "0") (Text.toString minutes) ++ JS.lit ":"
    ++ Text.padStart 2 (JS.lit "0") (Text.toString seconds).

(** What the big clock face shows: [formatTime(time.minutes, time.seconds)]. *)
Definition display (s : State) : JS.str :=
  formatTime (minutes (time s)) (JS.Int (seconds (time s))).

(** The "Completed Tasks" figure:
    [tasks.filter((task) => task.completed).length]. *)
Definition completedTasks (s : State) : nat :=
  length (List.filter (fun task => completed task) (tasks s)).

(** ** Persistence of the counter and of the settings *)

(** The effect of lines 64-66:
    [localStorage.setItem("completed-pomodoros", completedPomodoros.toString())]. *)
Definition saveCompletedPomodoros (s : State) (store : Storage) : Storage :=
  <[JS.lit "completed-pomodoros" := Text.toString (JS.Int (completedPomodoros s))]> store.

(** Lines 52-54 of the mount effect:
    [if (savedCompletedPomodoros) setCompletedPomodoros(parseInt(savedCompletedPomodoros, 10))].
    [None] when [parseInt] yields [NaN], which the integer counter of
    [State] does not hold. *)
Definition loadCompletedPomodoros (store : Storage) (s : State) : option State :=
  match store !! JS.lit "completed-pomodoros" with
  | Some saved =>
      if JS.truthy saved then
        match Text.parseInt10 saved with
        | JS.Int z => Some (setCompletedPomodoros z s)
        | JS.NaN => None
        end
      else Some s
  | None => Some s
  end.

(** A number as [JSON.stringify] writes it: [NaN] becomes [null]. *)
Definition json_of_number (x : JS.number) : JSON.value :=
  match x with
  | JS.Int z => JSON.Num z
  | JS.NaN => JSON.Null
  end.

(** The settings object, its three properties in the order of its literal
    (a spread with one key replaced keeps that order). *)
Definition json_of_settings (cfg : TimerSettings.t) : JSON.value :=
  JSON.Obj [(JS.lit "work", json_of_number (TimerSettings.work cfg));
            (JS.lit "shortBreak", json_of_number (TimerSettings.shortBreak cfg));
            (JS.lit "longBreak", json_of_number (TimerSettings.longBreak cfg))].

(** A parsed value seen at the type [TimerSettings]; [None] when a duration
    is missing or is no integer ([null] included). *)
Definition settings_of_json (v : JSON.value) : option TimerSettings.t :=
  match v with
  | JSON.Obj ms =>
      match property (JS.lit "work") ms, property (JS.lit "shortBreak") ms,
            property (JS.lit "longBreak") ms with
      | Some (JSON.Num w), Some (JSON.Num sb), Some (JSON.Num lb) =>
          Some (TimerSettings.mk (JS.Int w) (JS.Int sb) (JS.Int lb))
      | _, _, _ => None
      end
  | _ => None
  end.

(** The effect of lines 68-70:
    [localStorage.setItem("timer-settings", JSON.stringify(timerSettings))]. *)
Definition saveTimerSettings (s : State) (store : Storage) : Storage :=
  <[JS.lit "timer-settings" := JSON.stringify (json_of_settings (timerSettings s))]> store.

(** Lines 56-57 of the mount effect:
    [if (savedTimerSettings) setTimerSettings(JSON.parse(savedTimerSettings))]. *)
Definition loadTimerSettings (store : Storage) (s : State) : option State :=
  match store !! JS.lit "timer-settings" with
  | Some saved =>
      if JS.truthy saved then
        match JSON.parse saved with
        | Some v =>
            match settings_of_json v with
            | Some cfg => Some (setTimerSettings cfg s)
            | None => None
            end
        | None => None
        end
      else Some s
  | None => Some s
  end.

(** The whole mount effect (lines 47-58), run once over [store]. *)
Definition mountEffect (store : Storage) (s : State) : option State :=
  match loadTasks store s with
  | Some s1 =>
      match loadCompletedPomodoros store s1 with
      | Some s2 => loadTimerSettings store s2
      | None => None
      end
  | None => None
  end.

(** The three save effects (lines 60-70), each writing its own key. *)
Definition persist (s : State) (store : Storage) : Storage :=
  saveTimerSettings s (saveCompletedPomodoros s (saveTasks s store)).

(** The keys the component reads and writes. *)
Definition storage_keys : list JS.str :=
  [JS.lit "pomodoro-tasks"; JS.lit "completed-pomodoros"; JS.lit "timer-settings"].

(** [localStorage.getItem(key)] is [null] or the empty string. *)
Definition unsaved (store : Storage) (key : JS.str) : Prop :=
  store !! key = None \/ store !! key = Some [].

(** ** The first version of the component: a bare 25-minute countdown *)

Module Basic.

(** The three cells of the first version. *)
Record State : Set := mkState {
  minutes : Z;
  seconds : Z;
  isActive : bool
}.

Definition initial : State := mkState 25 0 false.

(** One firing of its interval, which exists only while [isActive]: the
    callback reads [minutes] and [seconds] of the render that installed it. *)
Definition tick (s : State) : State :=
  if isActive s then
    if 0 <? seconds s then mkState (minutes s) (seconds s - 1) (isActive s)
    else if 0 <? minutes s then mkState (minutes s - 1) 59 (isActive s)
    else mkState (minutes s) (seconds s) false
  else s.

Fixpoint ticks (n : nat) (s : State) : State :=
  match n with
  | O => s
  | S k => ticks k (tick s)
  end.

(** [toggleTimer()] *)
Definition toggleTimer (s : State) : State :=
  mkState (minutes s) (seconds s) (negb (isActive s)).

(** [resetTimer()] *)
Definition resetTimer (s : State) : State := mkState 25 0 false.

End Basic.

(** ** The versions with fixed durations *)

Module Fixed.

(** The cells of the versions that have tasks but neither settings nor a
    mute button. *)
Record State : Set := mkState {
  time : Time;
  isActive : bool;
  timerType : TimerType;
  tasks : list Task;
  newTask : JS.str;
  completedPomodoros : Z
}.

Definition initial : State := mkState (mkTime (JS.Int 25) 0) false work [] [] 0.

(** [timerDurations[type]] *)
Definition timerDurations (type : TimerType) : JS.number :=
  match type with
  | work => JS.Int 25
  | shortBreak => JS.Int 5
  | longBreak => JS.Int 15
  end.

(** [switchTimer(type)] *)
Definition switchTimer (type : TimerType) (s : State) : State :=
  mkState (mkTime (timerDurations type) 0) (isActive s) type (tasks s) (newTask s)
          (completedPomodoros s).

(** [handleTimerComplete()]: the sound is played whenever it runs. *)
Definition handleTimerComplete (s : State) : State * list Event :=
  let s1 := mkState (time s) false (timerType s) (tasks s) (newTask s)
                    (match timerType s with
                     | work => completedPomodoros s + 1
                     | _ => completedPomodoros s
                     end) in
  (switchTimer (match timerType s with work => shortBreak | _ => work end) s1,
   [SessionCompleted (timerType s); Notified]).

(** One firing of the interval. *)
Definition tick (s : State) : State * list Event :=
  if isActive s then
    let prevTime := time s in
    if seconds prevTime =? 0 then
      if JS.is_zero (minutes prevTime) then handleTimerComplete s
      else
        (mkState (mkTime (JS.pred (minutes prevTime)) 59) (isActive s) (timerType s)
                 (tasks s) (newTask s) (completedPomodoros s), [])
    else
      (mkState (mkTime (minutes prevTime) (seconds prevTime - 1)) (isActive s)
               (timerType s) (tasks s) (newTask s) (completedPomodoros s), [])
  else (s, []).

(** [toggleTimer()] *)
Definition toggleTimer (s : State) : State :=
  mkState (time s) (negb (isActive s)) (timerType s) (tasks s) (newTask s)
          (completedPomodoros s).

(** [resetTimer()] *)
Definition resetTimer (s : State) : State :=
  mkState (mkTime (timerDurations (timerType s)) 0) false (timerType s) (tasks s)
          (newTask s) (completedPomodoros s).

Definition setTasks (v : list Task) (s : State) : State :=
  mkState (time s) (isActive s) (timerType s) v (newTask s) (completedPomodoros s).

Definition setNewTask (v : JS.str) (s : State) : State :=
  mkState (time s) (isActive s) (timerType s) (tasks s) v (completedPomodoros s).

(** [addTask()] *)
Definition addTask (now : Z) (s : State) : State :=
  if JS.truthy (JS.trim (newTask s)) then
    setNewTask [] (setTasks (tasks s ++ [mkTask now (newTask s) false 0]) s)
  else s.

(** [toggleTaskCompletion(id)] *)
Definition toggleTaskCompletion (i : Z) (s : State) : State :=
  setTasks
    (map (fun task =>
            if id task =? i
            then mkTask (id task) (text task) (negb (completed task)) (pomodoros task)
            else task)
         (tasks s)) s.

(** [incrementTaskPomodoros(id)] *)
Definition incrementTaskPomodoros (i : Z) (s : State) : State :=
  setTasks
    (map (fun task =>
            if id task =? i
            then mkTask (id task) (text task) (completed task) (pomodoros task + 1)
            else task)
         (tasks s)) s.

(** [removeTask(id)], which only the later of the two versions has. *)
Definition removeTask (i : Z) (s : State) : State :=
  setTasks (List.filter (fun task => negb (id task =? i)) (tasks s)) s.

(** What can happen to these versions. *)
Inductive Action : Set :=
| Tick
| ToggleTimer
| SwitchTimer (type : TimerType)
| ResetTimer
| ChangeNewTask (value : JS.str)
| AddTask (now : Z)
| ToggleTaskCompletion (i : Z)
| IncrementTaskPomodoros (i : Z)
| RemoveTask (i : Z).

Definition step (a : Action) (s : State) : State * list Event :=
  match a with
  | Tick => tick s
  | ToggleTimer => (toggleTimer s, [])
  | SwitchTimer type => (switchTimer type s, [])
  | ResetTimer => (resetTimer s, [])
  | ChangeNewTask value => (setNewTask value s, [])
  | AddTask now => (addTask now s, [])
  | ToggleTaskCompletion i => (toggleTaskCompletion i s, [])
  | IncrementTaskPomodoros i => (incrementTaskPomodoros i s, [])
  | RemoveTask i => (removeTask i s, [])
  end.

Fixpoint run (acts : list Action) (s : State) : State * list Event :=
  match acts with
  | [] => (s, [])
  | a :: rest =>
      let '(s1, e1) := step a s in
      let '(s2, e2) := run rest s1 in
      (s2, e1 ++ e2)
  end.

End Fixed.

(** The same action on the version with settings. *)
Definition with_settings (a : Fixed.Action) : Action :=
  match a with
  | Fixed.Tick => Tick
  | Fixed.ToggleTimer => ToggleTimer
  | Fixed.SwitchTimer type => SwitchTimer type
  | Fixed.ResetTimer => ResetTimer
  | Fixed.ChangeNewTask value => ChangeNewTask value
  | Fixed.AddTask now => AddTask now
  | Fixed.ToggleTaskCompletion i => ToggleTaskCompletion i
  | Fixed.IncrementTaskPomodoros i => IncrementTaskPomodoros i
  | Fixed.RemoveTask i => RemoveTask i
  end.

(** The cells the versions share. *)
Definition without_settings (s : State) : Fixed.State :=
  Fixed.mkState (time s) (isActive s) (timerType s) (tasks s) (newTask s)
                (completedPomodoros s).

(** ** Notions used to state properties of runs *)

(** A task as [addTask] makes it and the other handlers keep it: its text
    does not trim to the empty string and its count is not negative. *)
Definition task_ok (t : Task) : Prop :=
  JS.truthy (JS.trim (text t)) = true /\ 0 <= pomodoros t.

(** The long break is asked for by this action. *)
Definition asks_longBreak (a : Action) : bool :=
  match a with
  | SwitchTimer longBreak => true
  | _ => false
  end.

(** The action belongs to the task list. *)
Definition is_task_action (a : Action) : bool :=
  match a with
  | ChangeNewTask _ | AddTask _ | ToggleTaskCompletion _
  | IncrementTaskPomodoros _ | RemoveTask _ => true
  | _ => false
  end.

(** [n] clicks on the +1 button of task [i]. *)
Fixpoint incrementTimes (n : nat) (i : Z) (s : State) : State :=
  match n with
  | O => s
  | S k => incrementTimes k i (incrementTaskPomodoros i s)
  end.

(** The minutes are not a number that counting down can bring to 0. *)
Definition unreachable_zero (x : JS.number) : Prop :=
  match x with
  | JS.NaN => True
  | JS.Int m => m < 0
  end.

(** The action is a click on the mute button. *)
Definition is_toggleMute (a : Action) : bool :=
  match a with
  | ToggleMute => true
  | _ => false
  end.

(** The callback that would complete the session holds the current mute
    flag: either the interval was installed with it, or the timer is paused
    and the interval will be installed when it is started. *)
Definition callback_sees_mute (s : State) : Prop :=
  isActive s = false \/ closedMuted (interval s) = isMuted s.

(** The callback that would complete the session holds the current type,
    settings and mute flag: either the interval was installed with them, or
    the timer is paused and the interval will be installed when it is
    started. *)
Definition callback_current (s : State) : Prop :=
  isActive s = false \/ interval s = snapshot s.

(** The three list functions the handlers pass to [setTasks]. *)
Definition flip_task (i : Z) (task : Task) : Task :=
  if id task =? i
  then mkTask (id task) (text task) (negb (completed task)) (pomodoros task)
  else task.

Definition count_task (i : Z) (task : Task) : Task :=
  if id task =? i
  then mkTask (id task) (text task) (completed task) (pomodoros task + 1)
  else task.

Definition other_than (i : Z) (task : Task) : bool := negb (id task =? i).

(** The name of a timer type as a property key. *)
Definition TimerType_name (type : TimerType) : JS.str :=
  match type with
  | work => JS.lit "work"
  | shortBreak => JS.lit "shortBreak"
  | longBreak => JS.lit "longBreak"
  end.

(** What [parseInt] stops at behind the digits: the end of the text, a
    decimal point or an exponent mark. *)
Definition cut_off (rest : JS.str) : Prop :=
  match rest with
  | [] => True
  | c :: _ => c = 46%N \/ c = 101%N \/ c = 69%N
  end.

(** Every duration of the configuration is an integer. *)
Definition all_integers (cfg : TimerSettings.t) : Prop :=
  forall k, get_setting cfg k <> JS.NaN.

(** The decimal text of a number below 100, padded to two characters. *)
Definition two_digits (n : nat) : JS.str :=
  [N.of_nat (48 + n / 10); N.of_nat (48 + n mod 10)].

(** * Properties *)

(** ** Setters *)

Lemma setTasks_same (s : State) : setTasks (tasks s) s = s.
Proof. now destruct s. Qed.

Lemma setIsActive_same (s : State) : setIsActive (isActive s) s = s.
Proof. now destruct s. Qed.

(** ** Counting down *)

Section Countdown.

Lemma ticks_app (n k : nat) (s : State) :
  ticks (n + k) s =
    let '(s1, e1) := ticks n s in
    let '(s2, e2) := ticks k s1 in
    (s2, e1 ++ e2).
Proof.
  revert s; induction n as [|n IH]; intros s; simpl.
  - now destruct (ticks k s).
  - destruct (tick s) as [s1 e1]. rewrite IH.
    destruct (ticks n s1) as [s2 e2], (ticks k s2) as [s3 e3].
    now rewrite app_assoc.
Qed.

Lemma ticks_S (n : nat) (s : State) :
  ticks (S n) s =
    let '(s1, e1) := tick s in
    let '(s2, e2) := ticks n s1 in
    (s2, e1 ++ e2).
Proof. reflexivity. Qed.

(** No interval exists while the timer is paused. *)
Lemma ticks_paused (n : nat) (s : State) :
  isActive s = false -> ticks n s = (s, []).
Proof.
  intros Hs; induction n as [|n IH]; simpl; [reflexivity|].
  unfold tick; rewrite Hs, IH; reflexivity.
Qed.

Lemma handleTimerCompleteOf_paused (c : Closure) (s : State) :
  isActive (fst (handleTimerCompleteOf c s)) = false.
Proof. unfold handleTimerCompleteOf; destruct (closedType c); reflexivity. Qed.

Lemma handleTimerComplete_paused (s : State) :
  isActive (fst (handleTimerComplete s)) = false.
Proof. apply handleTimerCompleteOf_paused. Qed.

(** Installing the interval touches no cell, and only the last installation
    counts. *)
Lemma reinstalled_setTime (n : nat) (t : Time) (s : State) :
  reinstalled n (setTime t s) = setTime t (reinstalled n s).
Proof. destruct n; reflexivity. Qed.

Lemma reinstalled_add (a b : nat) (s : State) :
  reinstalled a (reinstalled b s) = reinstalled (a + b) s.
Proof. destruct a, b; reflexivity. Qed.

Lemma reinstalled_isActive (n : nat) (s : State) :
  isActive (reinstalled n s) = isActive s.
Proof. destruct n; reflexivity. Qed.

Lemma reinstalled_time (n : nat) (s : State) :
  time (reinstalled n s) = time s.
Proof. destruct n; reflexivity. Qed.

Lemma setTime_setTime (t t' : Time) (s : State) :
  setTime t (setTime t' s) = setTime t s.
Proof. reflexivity. Qed.

Lemma setTime_time (s : State) : setTime (time s) s = s.
Proof. now destruct s. Qed.

(** A firing that does not complete the session writes the new display and
    is followed by a render that installs the interval anew. *)
Lemma tick_counts (s : State) (t : Time) :
  isActive s = true ->
  (if seconds (time s) =? 0
   then if JS.is_zero (minutes (time s)) then None
        else Some (mkTime (JS.pred (minutes (time s))) 59)
   else Some (mkTime (minutes (time s)) (seconds (time s) - 1))) = Some t ->
  tick s = (reinstalled 1 (setTime t s), []).
Proof.
  intros Ha Ht. unfold tick. rewrite Ha. cbn zeta.
  destruct (seconds (time s) =? 0).
  - destruct (JS.is_zero (minutes (time s))); [discriminate|].
    now injection Ht as <-.
  - now injection Ht as <-.
Qed.

(** The seconds run down to [0] without touching the minutes. *)
Lemma ticks_seconds (n : nat) (s : State) (m : JS.number) :
  isActive s = true -> time s = mkTime m (Z.of_nat n) ->
  ticks n s = (reinstalled n (setTime (mkTime m 0) s), []).
Proof.
  revert s; induction n as [|n IH]; intros s Ha Ht.
  - change (Z.of_nat 0) with 0 in Ht. simpl. now rewrite <- Ht, setTime_time.
  - rewrite ticks_S, (tick_counts s (mkTime m (Z.of_nat n))); [|exact Ha|].
    + rewrite IH; [|exact Ha|reflexivity].
      now rewrite !reinstalled_setTime, !reinstalled_add, !setTime_setTime, Nat.add_1_r.
    + rewrite Ht. cbn [seconds minutes].
      destruct (Z.eqb_spec (Z.of_nat (S n)) 0) as [E|_]; [lia|].
      do 2 f_equal; lia.
Qed.

(** A whole minute takes sixty firings: one borrows, 59 count down. *)
Lemma ticks_minute (s : State) (m : Z) :
  isActive s = true -> time s = mkTime (JS.Int m) 0 -> m <> 0 ->
  ticks 60 s = (reinstalled 60 (setTime (mkTime (JS.Int (m - 1)) 0) s), []).
Proof.
  intros Ha Ht Hm.
  rewrite ticks_S, (tick_counts s (mkTime (JS.Int (m - 1)) 59)); [|exact Ha|].
  - rewrite (ticks_seconds 59 _ (JS.Int (m - 1))); [|exact Ha|reflexivity].
    reflexivity.
  - rewrite Ht. cbn [seconds minutes JS.is_zero JS.pred Z.eqb].
    now destruct (Z.eqb_spec m 0) as [E|_].
Qed.

Lemma ticks_minutes (m : nat) (s : State) :
  isActive s = true -> time s = mkTime (JS.Int (Z.of_nat m)) 0 ->
  ticks (m * 60) s = (reinstalled (m * 60) (setTime (mkTime (JS.Int 0) 0) s), []).
Proof.
  revert s; induction m as [|m IH]; intros s Ha Ht.
  - change (Z.of_nat 0) with 0 in Ht. simpl. now rewrite <- Ht, setTime_time.
  - replace (S m * 60)%nat with (60 + m * 60)%nat by lia.
    rewrite ticks_app, (ticks_minute s (Z.of_nat (S m))) by (auto; lia).
    replace (Z.of_nat (S m) - 1) with (Z.of_nat m) by lia.
    rewrite IH; [|exact Ha|reflexivity].
    rewrite !reinstalled_setTime, !reinstalled_add, !setTime_setTime.
    cbn [app]. do 3 f_equal. lia.
Qed.

(** From [m:sec] the display reaches [0:00] after [m*60+sec] firings, and
    nothing has completed yet. *)
Lemma ticks_to_zero (s : State) (m sec : Z) :
  isActive s = true -> time s = mkTime (JS.Int m) sec -> 0 <= m -> 0 <= sec ->
  ticks (Z.to_nat (m * 60 + sec)) s =
    (reinstalled (Z.to_nat (m * 60 + sec)) (setTime (mkTime (JS.Int 0) 0) s), []).
Proof.
  intros Ha Ht Hm Hsec.
  replace (Z.to_nat (m * 60 + sec)) with (Z.to_nat sec + Z.to_nat m * 60)%nat by lia.
  rewrite ticks_app, (ticks_seconds _ s (JS.Int m)); [|auto|rewrite Ht; f_equal; lia].
  rewrite ticks_minutes.
  - rewrite !reinstalled_setTime, !reinstalled_add, !setTime_setTime.
    cbn [app]. do 3 f_equal. lia.
  - now rewrite reinstalled_isActive.
  - rewrite reinstalled_time. cbn. do 2 f_equal. lia.
Qed.

(** At [0:00] the next firing completes the session, with the handler the
    interval holds. *)
Lemma tick_at_zero (s : State) :
  isActive s = true -> time s = mkTime (JS.Int 0) 0 ->
  tick s =
    (installInterval (fst (handleTimerCompleteOf (interval s) s)),
     snd (handleTimerCompleteOf (interval s) s)).
Proof.
  intros Ha Ht. unfold tick. rewrite Ha, Ht. cbn [seconds minutes JS.is_zero Z.eqb].
  rewrite <- Ht, setTime_time. now destruct (handleTimerCompleteOf _ _).
Qed.

(** The handler reads the cells it is called on only through the counter,
    and its result does not depend on the interval they carry. *)
Lemma handleTimerCompleteOf_reinstalled (c : Closure) (n : nat) (s : State) :
  installInterval (fst (handleTimerCompleteOf c (reinstalled n s))) =
    installInterval (fst (handleTimerCompleteOf c s)) /\
  snd (handleTimerCompleteOf c (reinstalled n s)) = snd (handleTimerCompleteOf c s).
Proof. destruct n, c as [[] ? ?]; split; reflexivity. Qed.

(** One more firing completes, and whatever number follows adds nothing. *)
Lemma ticks_past_zero (s : State) (m sec : Z) (k : nat) :
  isActive s = true -> time s = mkTime (JS.Int m) sec -> 0 <= m -> 0 <= sec ->
  let n := Z.to_nat (m * 60 + sec) in
  let r := handleTimerCompleteOf (interval (reinstalled n s))
             (setTime (mkTime (JS.Int 0) 0) s) in
  ticks (n + 1 + k) s = (installInterval (fst r), snd r).
Proof.
  intros Ha Ht Hm Hsec n r.
  rewrite <- Nat.add_assoc, ticks_app. subst n.
  rewrite (ticks_to_zero s m sec) by assumption.
  rewrite ticks_app. cbn [ticks].
  rewrite tick_at_zero;
    [|now rewrite reinstalled_isActive|now rewrite reinstalled_time].
  set (n := Z.to_nat (m * 60 + sec)) in *.
  set (z := setTime (mkTime (JS.Int 0) 0) s) in *.
  replace (interval (reinstalled n z)) with (interval (reinstalled n s))
    by (destruct n; reflexivity).
  destruct (handleTimerCompleteOf_reinstalled (interval (reinstalled n s)) n z)
    as [E1 E2].
  rewrite E1, E2. fold r.
  pose proof (handleTimerCompleteOf_paused (interval (reinstalled n s)) z) as Hp.
  fold r in Hp.
  rewrite (ticks_paused k (installInterval (fst r))) by exact Hp.
  now rewrite !app_nil_r.
Qed.

End Countdown.

(** ** The session clock: completion *)




(** The callback is not replaced by a click on the mute button or an edit of
    the settings.  A work session that has been counted down to 0:00 and is
    then muted, and whose short break is then set to 7 minutes, completes
    at the next firing with the sound and a break of 5:00. *)
Example completion_with_stale_callback :
  let s := fst (run [ToggleTimer; SwitchTimer work] initial) in
  let r := run [ToggleMute; ChangeSetting shortBreak (JS.lit "7"); Tick]
               (fst (ticks 1500 s)) in
  time (fst (ticks 1500 s)) = mkTime (JS.Int 0) 0 /\
  isMuted (fst r) = true /\
  get_setting (timerSettings (fst r)) shortBreak = JS.Int 7 /\
  snd r = [SessionCompleted work; Notified] /\
  timerType (fst r) = shortBreak /\
  time (fst r) = mkTime (JS.Int 5) 0.
Proof. vm_compute. repeat split; reflexivity. Qed.

(** ** The transition policy *)

Lemma work_completions_app (e1 e2 : list Event) :
  work_completions (e1 ++ e2) = (work_completions e1 + work_completions e2)%nat.
Proof. unfold work_completions. now rewrite List.filter_app, length_app. Qed.

Lemma step_counter (a : Action) (s : State) :
  completedPomodoros (fst (step a s)) =
    completedPomodoros s + Z.of_nat (work_completions (snd (step a s))).
Proof.
  destruct a; cbn; try (destruct s; cbn; lia).
  - unfold tick. destruct (isActive s); [|cbn; lia].
    destruct (seconds (time s) =? 0); [|cbn; lia].
    destruct (JS.is_zero (minutes (time s))); [|cbn; lia].
    unfold handleTimerCompleteOf, work_completions.
    destruct s as [t a ty ts nt c cfg mu [cty ccfg cmu]]; cbn.
    destruct cty, cmu; cbn; lia.
  - unfold addTask. destruct (JS.truthy _); cbn; lia.
Qed.

Lemma run_counter (acts : list Action) (s : State) :
  completedPomodoros (fst (run acts s)) =
    completedPomodoros s + Z.of_nat (work_completions (snd (run acts s))).
Proof.
  revert s; induction acts as [|a acts IH]; intros s; cbn [run]; [cbn; lia|].
  pose proof (step_counter a s) as Ha.
  destruct (step a s) as [s1 e1]; cbn [fst snd] in Ha.
  specialize (IH s1). destruct (run acts s1) as [s2 e2]; cbn [fst snd] in *.
  rewrite work_completions_app. lia.
Qed.

(** C2: completing a work session adds exactly 1 to [completedPomodoros] and
    switches to the short break; completing a short or long break switches
    to work and leaves the counter alone.  Over any run of the component the
    counter has grown by exactly the number of work sessions completed in
    it. *)
Theorem completion_policy :
  (forall s : State,
     let s' := fst (handleTimerComplete s) in
     match timerType s with
     | work =>
         completedPomodoros s' = completedPomodoros s + 1 /\ timerType s' = shortBreak
     | shortBreak | longBreak =>
         completedPomodoros s' = completedPomodoros s /\ timerType s' = work
     end) /\
  (forall (acts : list Action) (s : State),
     completedPomodoros (fst (run acts s)) =
       completedPomodoros s + Z.of_nat (work_completions (snd (run acts s)))).
Proof.
  split; [|exact run_counter].
  intros [t a ty ts nt c cfg mu cl]; unfold handleTimerComplete; cbn.
  destruct ty; cbn; split; reflexivity.
Qed.

(** C3: when the duration configured for [k] is [d > 0] minutes,
    [switchTimer k] sets the type to [k] and the display to [d:00], that is
    [d*60] seconds, whatever the state, and leaves [isActive] as it was. *)
Theorem switchTimer_resets (s : State) (k : TimerType) (d : Z) :
  get_setting (timerSettings s) k = JS.Int d -> 0 < d ->
  timerType (switchTimer k s) = k /\
  time (switchTimer k s) = mkTime (JS.Int d) 0 /\
  remainingSeconds (time (switchTimer k s)) = JS.Int (d * 60) /\
  isActive (switchTimer k s) = isActive s.
Proof.
  intros Hd _. unfold switchTimer, remainingSeconds; cbn. rewrite Hd; cbn.
  repeat split. f_equal; lia.
Qed.

Lemma switchTimer_resets_witness :
  (get_setting (timerSettings (toggleTimer initial)) longBreak = JS.Int 15 /\ 0 < 15) /\
  timerType (switchTimer longBreak (toggleTimer initial)) = longBreak /\
  time (switchTimer longBreak (toggleTimer initial)) = mkTime (JS.Int 15) 0 /\
  remainingSeconds (time (switchTimer longBreak (toggleTimer initial))) = JS.Int (15 * 60) /\
  isActive (switchTimer longBreak (toggleTimer initial)) = true.
Proof.
  split; [split; [reflexivity|lia]|].
  exact (switchTimer_resets (toggleTimer initial) longBreak 15 eq_refl ltac:(lia)).
Defined.

(** ** Start and pause *)

(** C4, as stated, fails: the Start/Pause button has one handler,
    [toggleTimer]; on a session that is already running it is not a no-op,
    it pauses the session. *)
Lemma toggleTimer_running_pauses :
  isActive (toggleTimer initial) = true /\
  isActive (toggleTimer (toggleTimer initial)) = false /\
  toggleTimer (toggleTimer initial) <> toggleTimer initial.
Proof. repeat split; discriminate. Qed.

(** C4, amended: [toggleTimer] flips [isActive] (it starts a paused session
    and pauses a running one) and changes nothing else: display and
    remaining time, type, counter, tasks, text field, settings and mute flag
    are untouched; pausing and starting again gives back the very state one
    began with, and the interval is then installed with the values of that
    state. *)
Theorem toggleTimer_flips (s : State) :
  isActive (toggleTimer s) = negb (isActive s) /\
  time (toggleTimer s) = time s /\
  remainingSeconds (time (toggleTimer s)) = remainingSeconds (time s) /\
  timerType (toggleTimer s) = timerType s /\
  completedPomodoros (toggleTimer s) = completedPomodoros s /\
  tasks (toggleTimer s) = tasks s /\
  newTask (toggleTimer s) = newTask s /\
  timerSettings (toggleTimer s) = timerSettings s /\
  isMuted (toggleTimer s) = isMuted s /\
  remainingSeconds (time (toggleTimer (toggleTimer s))) = remainingSeconds (time s) /\
  toggleTimer (toggleTimer s) = s /\
  fst (run [ToggleTimer; ToggleTimer] s) = installInterval s.
Proof.
  destruct s as [t a ty ts nt c cfg mu cl].
  cbn [run step fst snd]. unfold toggleTimer, installInterval, snapshot; cbn.
  rewrite negb_involutive. repeat split.
Qed.

(** ** Trimming *)

Section Trim.

Lemma trimStart_nil_iff (s : JS.str) :
  JS.trimStart s = [] <-> forallb JS.is_space s = true.
Proof.
  induction s as [|c r IH]; cbn; [tauto|].
  destruct (JS.is_space c); cbn; [exact IH|]. split; discriminate.
Qed.

(** What [trimStart] leaves starts with a character that is not white
    space, so trimming it again finds nothing to strip. *)
Lemma trimStart_idem (s : JS.str) : JS.trimStart (JS.trimStart s) = JS.trimStart s.
Proof.
  induction s as [|c r IH]; cbn; [reflexivity|].
  destruct (JS.is_space c) eqn:E; [exact IH|]. cbn. now rewrite E.
Qed.

Lemma forallb_rev {A} (f : A -> bool) (l : list A) :
  forallb f (rev l) = forallb f l.
Proof.
  induction l as [|x l IH]; cbn; [reflexivity|].
  rewrite forallb_app, IH; cbn. rewrite andb_true_r. apply andb_comm.
Qed.

(** A string trims to the empty string exactly when it consists of white
    space only (the empty string included). *)
Lemma trim_nil_iff (s : JS.str) :
  JS.trim s = [] <-> forallb JS.is_space s = true.
Proof.
  unfold JS.trim, JS.trimEnd. split.
  - intros H. apply (f_equal (@rev N)) in H. rewrite rev_involutive in H. cbn in H.
    apply trimStart_nil_iff in H. rewrite forallb_rev in H.
    apply trimStart_nil_iff in H. rewrite trimStart_idem in H.
    now apply trimStart_nil_iff.
  - intros H. apply trimStart_nil_iff in H. now rewrite H.
Qed.

Lemma truthy_trim (s : JS.str) :
  JS.truthy (JS.trim s) = negb (forallb JS.is_space s).
Proof.
  pose proof (trim_nil_iff s) as [H1 H2].
  destruct (JS.trim s) eqn:E; cbn.
  - now rewrite H1.
  - destruct (forallb JS.is_space s); [|reflexivity]. now specialize (H2 eq_refl).
Qed.

End Trim.

(** ** The task ledger *)

Lemma tasks_addTask (s : State) (value : JS.str) (now : Z) :
  tasks (addTask now (onChangeNewTask value s)) =
    if JS.truthy (JS.trim value)
    then tasks s ++ [mkTask now value false 0]
    else tasks s.
Proof.
  unfold addTask, onChangeNewTask.
  change (newTask (setNewTask value s)) with value.
  now destruct (JS.truthy (JS.trim value)).
Qed.

(** C5: a submitted text that is empty or all white space (it trims to the
    empty string) leaves the task list as it is; any other text appends
    exactly one task, with [completed = false] and [pomodoros = 0], behind
    the existing tasks, which keep their values and their order. *)
Theorem addTask_appends_one (s : State) (value : JS.str) (now : Z) :
  JS.truthy (JS.trim value) = negb (forallb JS.is_space value) /\
  tasks (addTask now (onChangeNewTask value s)) =
    if forallb JS.is_space value
    then tasks s
    else tasks s ++ [mkTask now value false 0].
Proof.
  split; [apply truthy_trim|].
  rewrite tasks_addTask, truthy_trim.
  destruct (forallb JS.is_space value); reflexivity.
Qed.

Example addTask_empty (s : State) (now : Z) :
  tasks (addTask now (onChangeNewTask (JS.lit "") s)) = tasks s.
Proof. reflexivity. Qed.

Example addTask_blank (s : State) (now : Z) :
  tasks (addTask now (onChangeNewTask (JS.lit "   ") s)) = tasks s.
Proof. reflexivity. Qed.

Example addTask_write_spec (s : State) (now : Z) :
  tasks (addTask now (onChangeNewTask (JS.lit "write spec") s)) =
    tasks s ++ [mkTask now (JS.lit "write spec") false 0].
Proof. reflexivity. Qed.

(** C10: the text of an accepted task is the submitted string itself, white
    space at its ends included; [trim] is used for the test only. *)
Theorem addTask_stores_text_verbatim (s : State) (value : JS.str) (now : Z) :
  JS.truthy (JS.trim value) = true ->
  exists task : Task,
    tasks (addTask now (onChangeNewTask value s)) = tasks s ++ [task] /\
    text task = value.
Proof.
  intros H. exists (mkTask now value false 0).
  now rewrite tasks_addTask, H.
Qed.

Lemma addTask_stores_text_verbatim_witness :
  (JS.truthy (JS.trim (JS.lit "  tea ")) = true /\
   JS.trim (JS.lit "  tea ") = JS.lit "tea") /\
  exists task : Task,
    tasks (addTask 1 (onChangeNewTask (JS.lit "  tea ") initial)) = tasks initial ++ [task] /\
    text task = JS.lit "  tea ".
Proof.
  split; [split; reflexivity|].
  exact (addTask_stores_text_verbatim initial (JS.lit "  tea ") 1 eq_refl).
Defined.

(** ** Task ids *)

Section Ids.

Implicit Types (ts : list Task) (i now : Z) (f : Task -> Task).

Lemma ids_app ts1 ts2 : ids (ts1 ++ ts2) = ids ts1 ++ ids ts2.
Proof. apply map_app. Qed.

(** [tasks.map(f)] keeps the ids in place when [f] keeps each id. *)
Lemma ids_map f ts : (forall t, id (f t) = id t) -> ids (map f ts) = ids ts.
Proof.
  intros Hf. unfold ids. induction ts as [|t ts IH]; cbn; [reflexivity|].
  now rewrite Hf, IH.
Qed.

(** [tasks.map(f)] is the same list when [f] only changes tasks whose id
    is [i] and no task has that id. *)
Lemma map_unknown_id f i ts :
  (forall t, id t <> i -> f t = t) -> i ∉ ids ts -> map f ts = ts.
Proof.
  intros Hf. unfold ids. induction ts as [|t ts IH]; cbn; [reflexivity|].
  intros [Ht Hts]%not_elem_of_cons. now rewrite Hf, IH.
Qed.

Lemma filter_unknown_id i ts :
  i ∉ ids ts -> List.filter (fun task => negb (id task =? i)) ts = ts.
Proof.
  unfold ids. induction ts as [|t ts IH]; cbn; [reflexivity|].
  intros [Ht Hts]%not_elem_of_cons.
  destruct (Z.eqb_spec (id t) i) as [E|_]; [congruence|]. cbn. now rewrite IH.
Qed.

(** [tasks.filter(p)] keeps what it keeps in the order it had. *)
Lemma filter_sublist (p : Task -> bool) ts : sublist (List.filter p ts) ts.
Proof.
  induction ts as [|t ts IH]; cbn; [constructor|].
  destruct (p t); now constructor.
Qed.

Lemma ids_sublist ts1 ts2 : sublist ts1 ts2 -> sublist (ids ts1) (ids ts2).
Proof. unfold ids. induction 1; cbn; now constructor. Qed.

Lemma elem_of_filter (p : Task -> bool) ts (t : Task) :
  t ∈ List.filter p ts <-> t ∈ ts /\ p t = true.
Proof.
  rewrite !list_elem_of_In. apply List.filter_In.
Qed.

Lemma toggle_keeps_id i (t : Task) :
  id (if id t =? i
      then mkTask (id t) (text t) (negb (completed t)) (pomodoros t)
      else t) = id t.
Proof. now destruct (id t =? i). Qed.

Lemma increment_keeps_id i (t : Task) :
  id (if id t =? i
      then mkTask (id t) (text t) (completed t) (pomodoros t + 1)
      else t) = id t.
Proof. now destruct (id t =? i). Qed.

Lemma ids_toggleTaskCompletion i (s : State) :
  ids (tasks (toggleTaskCompletion i s)) = ids (tasks s).
Proof. apply ids_map, toggle_keeps_id. Qed.

Lemma ids_incrementTaskPomodoros i (s : State) :
  ids (tasks (incrementTaskPomodoros i s)) = ids (tasks s).
Proof. apply ids_map, increment_keeps_id. Qed.

Lemma removeTask_sublist i (s : State) :
  sublist (tasks (removeTask i s)) (tasks s).
Proof. apply filter_sublist. Qed.

Lemma ids_addTask now (s : State) :
  ids (tasks (addTask now s)) =
    if JS.truthy (JS.trim (newTask s)) then ids (tasks s) ++ [now] else ids (tasks s).
Proof.
  unfold addTask. destruct (JS.truthy _); [|reflexivity].
  cbn [tasks setNewTask setTasks]. now rewrite ids_app.
Qed.

End Ids.

(** C6, as stated, fails: the id of a new task is the clock reading
    [Date.now()]; two tasks added at the same reading share their id. *)
Lemma addTask_same_clock_same_id :
  let s := addTask 1700000000000 (onChangeNewTask (JS.lit "B")
             (addTask 1700000000000 (onChangeNewTask (JS.lit "A") initial))) in
  NoDup (ids (tasks initial)) /\
  ids (tasks s) = [1700000000000; 1700000000000] /\
  ~ NoDup (ids (tasks s)).
Proof.
  cbn. split; [constructor|]. split; [reflexivity|].
  intros H. apply NoDup_cons in H as [H _]. apply H. constructor.
Qed.

(** C6, amended: [addTask] gives an accepted task the clock reading as its
    id.  Starting from pairwise distinct ids, the ids after [addTask] are
    pairwise distinct exactly when the input is rejected or the reading is
    not already the id of a task (as when the clock is beyond every earlier
    reading); [toggleTaskCompletion], [incrementTaskPomodoros] and
    [removeTask] always keep the ids pairwise distinct. *)
Theorem ids_distinct_preserved (s : State) (now i : Z) :
  NoDup (ids (tasks s)) ->
  (NoDup (ids (tasks (addTask now s))) <->
     JS.truthy (JS.trim (newTask s)) = false \/ now ∉ ids (tasks s)) /\
  (Forall (fun j => j < now) (ids (tasks s)) -> NoDup (ids (tasks (addTask now s)))) /\
  NoDup (ids (tasks (toggleTaskCompletion i s))) /\
  NoDup (ids (tasks (incrementTaskPomodoros i s))) /\
  NoDup (ids (tasks (removeTask i s))).
Proof.
  intros Hnd.
  assert (Hadd : NoDup (ids (tasks (addTask now s))) <->
            JS.truthy (JS.trim (newTask s)) = false \/ now ∉ ids (tasks s)).
  { rewrite ids_addTask. destruct (JS.truthy _).
    - rewrite NoDup_app. split.
      + intros (_ & Hdisj & _). right. intros Hin. apply (Hdisj now Hin). constructor.
      + intros [?|Hnin]; [discriminate|]. split; [exact Hnd|]. split.
        * intros x Hx Hx'. apply list_elem_of_singleton in Hx'. now subst.
        * apply NoDup_singleton.
    - split; [now left|now intros _]. }
  split; [exact Hadd|]. split.
  - intros Hlt. apply Hadd. right. intros Hin.
    rewrite Forall_forall in Hlt. specialize (Hlt now Hin). lia.
  - rewrite ids_toggleTaskCompletion, ids_incrementTaskPomodoros.
    repeat split; try exact Hnd.
    apply (sublist_NoDup _ _ Hnd), ids_sublist, removeTask_sublist.
Qed.

Lemma ids_distinct_preserved_witness :
  let s := onChangeNewTask (JS.lit "B")
             (addTask 1700000000000 (onChangeNewTask (JS.lit "A") initial)) in
  NoDup (ids (tasks s)) /\
  NoDup (ids (tasks (addTask 1700000000001 s))) /\
  NoDup (ids (tasks (toggleTaskCompletion 1700000000000 s))) /\
  NoDup (ids (tasks (incrementTaskPomodoros 1700000000000 s))) /\
  NoDup (ids (tasks (removeTask 1700000000000 s))).
Proof.
  intros s.
  assert (Hs : NoDup (ids (tasks s))) by (apply NoDup_singleton).
  destruct (ids_distinct_preserved s 1700000000001 1700000000000 Hs)
    as (_ & Hadd & Htog & Hinc & Hrem).
  repeat split; try assumption.
  apply Hadd. cbn. repeat constructor.
Defined.

(** ** Unknown ids and order *)

(** C8, as stated, fails in its scenario: when "A" and "B" are added at the
    same clock reading they share their id, and removing the task with the
    id of "A" removes "B" as well. *)
Lemma removeTask_same_clock_removes_both :
  let s := addTask 7 (onChangeNewTask (JS.lit "B")
             (addTask 7 (onChangeNewTask (JS.lit "A") initial))) in
  tasks s = [mkTask 7 (JS.lit "A") false 0; mkTask 7 (JS.lit "B") false 0] /\
  tasks (removeTask 7 s) = [] /\
  tasks (removeTask 7 s) <> [mkTask 7 (JS.lit "B") false 0].
Proof. cbn. repeat split. discriminate. Qed.

(** C8, amended: for an id that no task has, [toggleTaskCompletion],
    [incrementTaskPomodoros] and [removeTask] return the state they were
    given.  [toggleTaskCompletion] and [incrementTaskPomodoros] keep every
    id at its position, [removeTask] leaves exactly the tasks with another
    id, in the order they had, and [addTask] only extends the list at its
    end.  After adding "A" and "B" to an empty list at two different clock
    readings, removing the id of "A" leaves exactly the task "B". *)
Theorem unknown_id_noop_order_kept :
  (forall (s : State) (i : Z),
     i ∉ ids (tasks s) ->
     toggleTaskCompletion i s = s /\
     incrementTaskPomodoros i s = s /\
     removeTask i s = s) /\
  (forall (s : State) (i now : Z),
     ids (tasks (toggleTaskCompletion i s)) = ids (tasks s) /\
     ids (tasks (incrementTaskPomodoros i s)) = ids (tasks s) /\
     sublist (tasks (removeTask i s)) (tasks s) /\
     (forall t : Task, t ∈ tasks (removeTask i s) <-> t ∈ tasks s /\ id t <> i) /\
     tasks s `prefix_of` tasks (addTask now s)) /\
  (forall (s : State) (a b : JS.str) (nowA nowB : Z),
     tasks s = [] ->
     JS.truthy (JS.trim a) = true -> JS.truthy (JS.trim b) = true ->
     nowA <> nowB ->
     tasks (removeTask nowA
              (addTask nowB (onChangeNewTask b
                 (addTask nowA (onChangeNewTask a s))))) = [mkTask nowB b false 0]).
Proof.
  split; [|split].
  - intros s i Hi. unfold toggleTaskCompletion, incrementTaskPomodoros, removeTask.
    rewrite !(map_unknown_id _ i), filter_unknown_id, setTasks_same; auto;
      intros t Ht; now destruct (Z.eqb_spec (id t) i).
  - intros s i now. split; [apply ids_toggleTaskCompletion|].
    split; [apply ids_incrementTaskPomodoros|].
    split; [apply removeTask_sublist|]. split.
    + intros t. unfold removeTask; cbn [tasks setTasks]. rewrite elem_of_filter.
      destruct (Z.eqb_spec (id t) i); cbn; intuition congruence.
    + unfold addTask. destruct (JS.truthy _); [|reflexivity].
      cbn [tasks setNewTask setTasks]. now apply prefix_app_r.
  - intros s a b nowA nowB Hs Ha Hb Hne.
    unfold removeTask; cbn [tasks setTasks].
    rewrite tasks_addTask, Hb, tasks_addTask, Ha, Hs. cbn.
    rewrite Z.eqb_refl. destruct (Z.eqb_spec nowB nowA); [congruence|reflexivity].
Qed.

Lemma unknown_id_noop_order_kept_witness :
  let s := addTask 8 (onChangeNewTask (JS.lit "B")
             (addTask 7 (onChangeNewTask (JS.lit "A") initial))) in
  ((9 ∉ ids (tasks s)) /\ tasks initial = [] /\ 7 <> 8) /\
  (toggleTaskCompletion 9 s = s /\ incrementTaskPomodoros 9 s = s /\ removeTask 9 s = s) /\
  tasks (removeTask 7 s) = [mkTask 8 (JS.lit "B") false 0].
Proof.
  intros s. destruct unknown_id_noop_order_kept as (Hnoop & _ & Hscen).
  assert (H9 : 9 ∉ ids (tasks s)).
  { cbn. intros H. repeat (apply elem_of_cons in H as [H|H]; [discriminate|]).
    now apply elem_of_nil in H. }
  split; [repeat split; [exact H9|discriminate]|].
  split; [exact (Hnoop s 9 H9)|].
  exact (Hscen initial (JS.lit "A") (JS.lit "B") 7 8 eq_refl eq_refl eq_refl
           ltac:(discriminate)).
Defined.

(** ** The duration settings *)



Lemma get_put_setting (cfg : TimerSettings.t) (key k : TimerType) (v : JS.number) :
  get_setting (put_setting cfg key v) k = if decide (k = key) then v else get_setting cfg k.
Proof. destruct key, k, cfg; reflexivity. Qed.




(** ** JSON round trip *)

Module JSONFacts.
Import JSON.
Local Open Scope N_scope.

(** Case analysis on the comparisons of code units in the goal. *)
Ltac ncases :=
  repeat match goal with
    | |- context [N.eqb ?a ?b] => destruct (N.eqb_spec a b)
    | |- context [N.leb ?a ?b] => destruct (N.leb_spec a b)
    | |- context [N.ltb ?a ?b] => destruct (N.ltb_spec a b)
    end;
  cbn [andb orb negb].

(** *** Numbers *)

Lemma parse_digits_app (ds : JS.str) (acc : N) (rest : JS.str) :
  forallb is_digit ds = true ->
  match rest with c :: _ => is_digit c = false | [] => True end ->
  parse_digits acc (ds ++ rest) = (val_digits acc ds, rest).
Proof.
  revert acc; induction ds as [|d ds IH]; intros acc Hds Hrest; cbn.
  - destruct rest as [|c r]; cbn; [reflexivity|]. now rewrite Hrest.
  - cbn in Hds. apply andb_true_iff in Hds as [Hd Hds]. rewrite Hd. now apply IH.
Qed.

Lemma digits_of_spec (fuel : nat) (n : N) :
  n < 2 ^ N.of_nat fuel -> fuel <> O ->
  forallb is_digit (digits_of fuel n) = true /\
  val_digits 0 (digits_of fuel n) = n /\
  exists c r, digits_of fuel n = c :: r /\
              (n = 0 -> c = 48 /\ r = []) /\ (n <> 0 -> c <> 48).
Proof.
  revert n; induction fuel as [|f IH]; intros n Hn Hf; [contradiction|].
  cbn [digits_of]. destruct (N.ltb_spec n 10) as [Hlt|Hge].
  - split; [cbn; unfold is_digit; ncases; lia|].
    split; [unfold val_digits; cbn; lia|].
    exists (48 + n), []. repeat split; intros; subst; lia.
  - assert (Hf0 : f <> O).
    { intros ->. cbn in Hn. lia. }
    assert (Hdiv : n / 10 < 2 ^ N.of_nat f).
    { apply N.Div0.div_lt_upper_bound.
      rewrite Nat2N.inj_succ, N.pow_succ_r' in Hn. lia. }
    destruct (IH (n / 10) Hdiv Hf0) as (Hall & Hval & c & r & Heq & _ & Hnz).
    pose proof (N.div_mod n 10 ltac:(discriminate)) as Hqm.
    pose proof (N.mod_lt n 10 ltac:(discriminate)) as Hm.
    clear IH Hdiv Hn. revert Hall Hval Heq Hnz Hqm Hm.
    generalize (n / 10) (n mod 10). intros q m Hall Hval Heq Hnz Hqm Hm.
    split; [|split].
    + rewrite forallb_app, Hall. cbn [forallb andb]. unfold is_digit. ncases; lia.
    + unfold val_digits in *. rewrite fold_left_app, Hval. cbn. lia.
    + exists c, (r ++ [48 + m]). rewrite Heq. split; [reflexivity|].
      split; [lia|]. intros _. apply Hnz. lia.
Qed.

Lemma print_fuel (n : N) : n < 2 ^ N.of_nat (S (N.to_nat (N.log2 n))).
Proof.
  rewrite Nat2N.inj_succ, N2Nat.id.
  destruct (N.eq_dec n 0) as [->|Hn]; [reflexivity|].
  apply N.log2_spec. lia.
Qed.

Lemma parse_number_print (z : Z) (rest : JS.str) :
  delimited rest ->
  parse_number (print_num z ++ rest) = Some (z, rest).
Proof.
  intros Hrest. unfold print_num.
  destruct (digits_of_spec _ _ (print_fuel (Z.abs_N z)) ltac:(discriminate))
    as (Hall & Hval & c & r & Heq & Hz & Hnz).
  rewrite Heq in *. cbn in Hall. apply andb_true_iff in Hall as [Hc Hr].
  assert (Hc45 : (c =? 45) = false).
  { unfold is_digit in Hc. apply andb_true_iff in Hc as [H1 H2].
    apply N.leb_le in H1, H2. apply N.eqb_neq. lia. }
  assert (Hdig : match rest with c :: _ => is_digit c = false | [] => True end).
  { destruct rest as [|d ?]; [exact I|]. cbn in Hrest. unfold is_digit.
    destruct Hrest as [->| [->| ->]]; reflexivity. }
  assert (Htail : forall z' : Z,
            match rest with
            | d :: _ => if (d =? 46) || (d =? 101) || (d =? 69) then None else Some (z', rest)
            | [] => Some (z', rest)
            end = Some (z', rest)).
  { intros z'. destruct rest as [|d ?]; [reflexivity|]. cbn in Hrest.
    destruct Hrest as [->| [->| ->]]; reflexivity. }
  assert (Hnum : (if c =? 48 then (0, r ++ rest) else parse_digits (c - 48) (r ++ rest))
                 = (Z.abs_N z, rest)).
  { destruct (N.eqb_spec c 48) as [->|Hc48].
    - destruct (N.eq_dec (Z.abs_N z) 0) as [E|E]; [|now apply Hnz in E].
      destruct (Hz E) as [_ ->]. now rewrite E.
    - rewrite parse_digits_app by assumption. f_equal.
      unfold val_digits in *. cbn in Hval. exact Hval. }
  destruct (Z.ltb_spec z 0) as [Hneg|Hpos]; unfold parse_number.
  - cbn [app]. cbn [N.eqb Pos.eqb]. rewrite Hc, Hnum, Htail. do 2 f_equal. lia.
  - cbn [app]. rewrite Hc45, Hc, Hnum, Htail. do 2 f_equal. lia.
Qed.

(** *** Strings *)

Lemma hexval_hexchar (d : N) : d < 16 -> hexval (hexchar d) = Some d.
Proof.
  intros Hd. unfold hexchar, hexval. ncases; try lia; f_equal; lia.
Qed.

Lemma unhex4_hex4 (c : N) :
  c < 65536 ->
  unhex4 (hexchar (c / 4096)) (hexchar ((c / 256) mod 16))
         (hexchar ((c / 16) mod 16)) (hexchar (c mod 16)) = Some c.
Proof.
  intros Hc. unfold unhex4.
  rewrite !hexval_hexchar;
    try (apply N.mod_lt; discriminate);
    try (apply N.Div0.div_lt_upper_bound; exact Hc).
  f_equal.
  pose proof (N.div_mod c 16 ltac:(discriminate)) as H0.
  pose proof (N.div_mod (c / 16) 16 ltac:(discriminate)) as H1.
  pose proof (N.div_mod (c / 256) 16 ltac:(discriminate)) as H2.
  rewrite N.Div0.div_div in H1. change (16 * 16) with 256 in H1.
  replace (c / 256 / 16) with (c / 4096) in H2
    by (rewrite N.Div0.div_div; reflexivity).
  revert H0 H1 H2.
  generalize (c / 4096) (c / 256) (c / 16) (c mod 16) ((c / 16) mod 16) ((c / 256) mod 16).
  intros; lia.
Qed.

Lemma parse_chars_plain (c : N) (r : JS.str) :
  c <> 34 -> c <> 92 -> 32 <= c ->
  parse_chars (c :: r) =
    match parse_chars r with
    | Some (t, rest) => Some (c :: t, rest)
    | None => None
    end.
Proof.
  intros H1 H2 H3. cbn [parse_chars].
  destruct (N.eqb_spec c 34); [contradiction|].
  destruct (N.eqb_spec c 92); [contradiction|].
  destruct (N.ltb_spec c 32); [lia|reflexivity].
Qed.

Lemma parse_chars_escape (c : N) (s t rest : JS.str) :
  parse_chars s = Some (t, rest) ->
  parse_chars (escape c ++ s) = Some (c :: t, rest).
Proof.
  intros Hs. unfold escape.
  repeat match goal with
    | |- context [if N.eqb c ?k then _ else _] =>
        destruct (N.eqb_spec c k) as [->|?]; [cbn; now rewrite Hs|]
    end.
  destruct (_ || _) eqn:Hesc.
  - assert (Hc : c < 65536).
    { unfold is_lead, is_trail in Hesc. revert Hesc. ncases; intros; try discriminate; lia. }
    unfold hex4. cbn [app parse_chars N.eqb Pos.eqb].
    now rewrite (unhex4_hex4 c Hc), Hs.
  - cbn [app]. rewrite parse_chars_plain, Hs; try assumption; [reflexivity|].
    apply orb_false_iff in Hesc as [Hesc _]. apply orb_false_iff in Hesc as [Hesc _].
    now apply N.ltb_ge in Hesc.
Qed.

Lemma quote_chars_cons (h l : N) (r : JS.str) :
  quote_chars (h :: l :: r) =
    if is_lead h && is_trail l then h :: l :: quote_chars r
    else escape h ++ quote_chars (l :: r).
Proof. reflexivity. Qed.

Lemma parse_chars_quote_chars (s rest : JS.str) :
  parse_chars (quote_chars s ++ 34 :: rest) = Some (s, rest).
Proof.
  assert (H : forall (n : nat) (s : JS.str), (length s <= n)%nat ->
              parse_chars (quote_chars s ++ 34 :: rest) = Some (s, rest)).
  { clear s. induction n as [|n IH]; intros [|h [|l r]] Hlen; cbn in Hlen;
      try lia; try reflexivity.
    - apply (parse_chars_escape h (34 :: rest) [] rest). reflexivity.
    - rewrite quote_chars_cons. destruct (is_lead h && is_trail l) eqn:Hpair.
      + apply andb_true_iff in Hpair as [Hh Hl]. unfold is_lead, is_trail in Hh, Hl.
        apply andb_true_iff in Hh as [Hh _], Hl as [Hl _].
        apply N.leb_le in Hh, Hl.
        cbn [app]. rewrite !parse_chars_plain, IH by (cbn; lia). reflexivity.
      + rewrite <- app_assoc. apply parse_chars_escape, IH. cbn. lia. }
  exact (H (length s) s (le_n _)).
Qed.

Lemma quote_app (s rest : JS.str) :
  quote s ++ rest = 34 :: quote_chars s ++ 34 :: rest.
Proof. unfold quote. cbn. now rewrite <- app_assoc. Qed.

(** *** Values *)

Lemma print_num_head (z : Z) :
  exists c r, print_num z = c :: r /\ (c = 45 \/ is_digit c = true).
Proof.
  unfold print_num.
  destruct (digits_of_spec _ _ (print_fuel (Z.abs_N z)) ltac:(discriminate))
    as (Hall & _ & c & r & Heq & _).
  rewrite Heq in *. destruct (z <? 0)%Z; [eauto|].
  exists c, r. split; [reflexivity|]. right.
  cbn in Hall. now apply andb_true_iff in Hall as [Hc _].
Qed.

(** The text of a value begins with a character that is neither white
    space nor a closing bracket. *)
Lemma stringify_head (v : value) :
  exists c r, stringify v = c :: r /\ is_ws c = false /\ c <> 93.
Proof.
  destruct v as [|[]|z|s|vs|ms]; cbn [stringify];
    try (eexists _, _; split; [reflexivity|split; [reflexivity|discriminate]]).
  destruct (print_num_head z) as (c & r & -> & Hc).
  exists c, r. split; [reflexivity|].
  destruct Hc as [->|Hc]; [split; [reflexivity|discriminate]|].
  unfold is_digit in Hc. apply andb_true_iff in Hc as [H1 H2].
  apply N.leb_le in H1, H2. unfold is_ws. split; [ncases; lia|lia].
Qed.

Lemma skip_ws_head (c : N) (r : JS.str) :
  is_ws c = false -> skip_ws (c :: r) = c :: r.
Proof. intros H. cbn. now rewrite H. Qed.

Lemma parse_value_num (f : nat) (z : Z) (rest : JS.str) :
  delimited rest -> parse_value (S f) (print_num z ++ rest) = Some (Num z, rest).
Proof.
  intros Hrest. pose proof (parse_number_print z rest Hrest) as Hnum.
  destruct (print_num_head z) as (c & r & Heq & Hc). rewrite Heq in *.
  assert (Hws : is_ws c = false /\ (c =? 34) = false /\ (c =? 91) = false /\
                (c =? 123) = false /\ (c =? 110) = false /\ (c =? 116) = false /\
                (c =? 102) = false).
  { destruct Hc as [->|Hc]; [repeat split|].
    unfold is_digit in Hc. apply andb_true_iff in Hc as [H1 H2].
    apply N.leb_le in H1, H2. unfold is_ws. repeat split; ncases; lia. }
  destruct Hws as (Hws & H34 & H91 & H123 & H110 & H116 & H102).
  cbn [parse_value app]. rewrite (skip_ws_head _ _ Hws).
  rewrite H34, H91, H123, H110, H116, H102.
  cbn [app] in Hnum. now rewrite Hnum.
Qed.

Lemma join_comma_cons (p q : JS.str) (rest : list JS.str) :
  join_comma (p :: q :: rest) = p ++ 44 :: join_comma (q :: rest).
Proof. reflexivity. Qed.

Lemma stringify_length (v : value) : (1 <= length (stringify v))%nat.
Proof. destruct (stringify_head v) as (c & r & -> & _). cbn. lia. Qed.

Lemma parse_elements_join (vs : list value) :
  Forall reads_back vs -> vs <> [] ->
  forall (f : nat) (rest : JS.str),
    (2 * length (join_comma (map stringify vs)) + 1 <= f)%nat ->
    parse_elements f (join_comma (map stringify vs) ++ 93 :: rest) = Some (vs, rest).
Proof.
  induction 1 as [|v vs Hv Hvs IH]; [contradiction|]. intros _ f rest Hf.
  destruct f as [|f]; [lia|]. destruct vs as [|v' vs].
  - cbn [map join_comma] in *. cbn [parse_elements].
    rewrite (Hv f (93 :: rest)); [reflexivity|lia|cbn; auto].
  - cbn [map] in *. rewrite join_comma_cons in *. rewrite length_app in Hf.
    cbn [length] in Hf. pose proof (stringify_length v).
    cbn [parse_elements]. rewrite <- app_assoc.
    rewrite (Hv f); [|lia|cbn; auto]. cbn [app skip_ws is_ws N.eqb Pos.eqb orb].
    rewrite IH; [reflexivity|discriminate|lia].
Qed.

Lemma parse_members_join (ms : list (JS.str * value)) :
  Forall (fun m => reads_back (snd m)) ms -> ms <> [] ->
  forall (f : nat) (rest : JS.str),
    (2 * length (join_comma (map member_text ms)) + 1 <= f)%nat ->
    parse_members f (join_comma (map member_text ms) ++ 125 :: rest) = Some (ms, rest).
Proof.
  induction 1 as [|[k v] ms Hv Hms IH]; [contradiction|]. intros _ f rest Hf.
  destruct f as [|f]; [lia|]. cbn [snd] in Hv.
  assert (Hlen : (length (stringify v) + 3 <= length (member_text (k, v)))%nat).
  { unfold member_text, quote. cbn. rewrite !length_app. cbn. lia. }
  destruct ms as [|m' ms].
  - cbn [map join_comma] in *.
    unfold member_text at 1. cbn [fst snd]. rewrite <- app_assoc, quote_app.
    cbn [parse_members skip_ws is_ws N.eqb Pos.eqb orb].
    rewrite parse_chars_quote_chars.
    cbn [app skip_ws is_ws N.eqb Pos.eqb orb].
    rewrite (Hv f (125 :: rest)); [reflexivity|lia|cbn; auto].
  - cbn [map] in *. rewrite join_comma_cons in *. rewrite length_app in Hf.
    cbn [length] in Hf.
    unfold member_text at 1. cbn [fst snd]. rewrite <- !app_assoc, quote_app.
    cbn [parse_members skip_ws is_ws N.eqb Pos.eqb orb].
    rewrite parse_chars_quote_chars.
    cbn [app skip_ws is_ws N.eqb Pos.eqb orb].
    rewrite (Hv f); [|lia|cbn; auto]. cbn [app skip_ws is_ws N.eqb Pos.eqb orb].
    rewrite IH; [reflexivity|discriminate|lia].
Qed.

Lemma parse_value_stringify (v : value) : reads_back v.
Proof.
  induction v as [|b|z|s|vs IH|ms IH] using value_ind'; intros f rest Hf Hrest;
    (destruct f as [|f];
     [match type of Hf with
      | (2 * length (stringify ?x) <= _)%nat => pose proof (stringify_length x)
      end; lia|]).
  - reflexivity.
  - destruct b; reflexivity.
  - now apply parse_value_num.
  - cbn [stringify]. rewrite quote_app.
    cbn [parse_value skip_ws is_ws N.eqb Pos.eqb orb].
    now rewrite parse_chars_quote_chars.
  - cbn [stringify] in *. destruct vs as [|v vs]; [reflexivity|].
    cbn [app]. rewrite <- app_assoc. cbn [app].
    cbn [parse_value skip_ws is_ws N.eqb Pos.eqb orb].
    assert (Hne : v :: vs <> []) by discriminate.
    assert (Hhead : exists c r, join_comma (map stringify (v :: vs)) = c :: r /\
                                is_ws c = false /\ c <> 93).
    { destruct (stringify_head v) as (c & r & Hc & Hws & H93).
      destruct vs; cbn [map]; [|rewrite join_comma_cons]; cbn [join_comma];
        rewrite Hc; eauto. }
    destruct Hhead as (c & r & Hc & Hws & H93).
    cbn [length] in Hf. rewrite length_app in Hf. cbn [length] in Hf.
    rewrite (parse_elements_join _ IH Hne) by lia.
    rewrite Hc. cbn [app]. rewrite (skip_ws_head _ _ Hws).
    destruct c as [|p]; [reflexivity|].
    repeat (destruct p as [p|p|]; try reflexivity). congruence.
  - cbn [stringify] in *. destruct ms as [|m ms]; [reflexivity|].
    change (map (fun m0 => quote (fst m0) ++ 58 :: stringify (snd m0)) (m :: ms))
      with (map member_text (m :: ms)) in *.
    cbn [app]. rewrite <- app_assoc. cbn [app].
    cbn [parse_value skip_ws is_ws N.eqb Pos.eqb orb].
    assert (Hne : m :: ms <> []) by discriminate.
    assert (Hhead : exists r, join_comma (map member_text (m :: ms)) = 34 :: r).
    { destruct ms; cbn [map]; [|rewrite join_comma_cons]; cbn [join_comma];
        unfold member_text, quote; cbn; eauto. }
    destruct Hhead as (r & Hr).
    cbn [length] in Hf. rewrite length_app in Hf. cbn [length] in Hf.
    rewrite (parse_members_join _ IH Hne) by lia.
    rewrite Hr. reflexivity.
Qed.

(** [JSON.parse(JSON.stringify(v))] is [v]. *)
Lemma parse_stringify (v : value) : parse (stringify v) = Some v.
Proof.
  unfold parse.
  pose proof (parse_value_stringify v (2 * length (stringify v) + 2)%nat []
                ltac:(lia) I) as H.
  rewrite app_nil_r in H. now rewrite H.
Qed.

End JSONFacts.

(** ** Persistence *)

Lemma task_of_json_of_task (t : Task) : task_of_json (json_of_task t) = Some t.
Proof. now destruct t. Qed.

Lemma tasks_of_json_of_tasks (ts : list Task) :
  tasks_of_json (json_of_tasks ts) = Some ts.
Proof.
  unfold tasks_of_json, json_of_tasks.
  induction ts as [|t ts IH]; [reflexivity|].
  cbn [map mapM]. rewrite task_of_json_of_task. cbn. now rewrite IH.
Qed.

Lemma stringify_truthy (v : JSON.value) : JS.truthy (JSON.stringify v) = true.
Proof. now destruct (JSONFacts.stringify_head v) as (c & r & -> & _). Qed.

(** C9: whatever the task list, the text the save effect stores under
    "pomodoro-tasks" parses back to the same JSON value, and the load effect
    run over that store sets [tasks] to the very list that was saved: same
    tasks, with the same id, text, completed flag and pomodoro count, in the
    same order. *)
Theorem tasks_round_trip (s s0 : State) (store : Storage) :
  JSON.parse (JSON.stringify (json_of_tasks (tasks s))) = Some (json_of_tasks (tasks s)) /\
  tasks_of_json (json_of_tasks (tasks s)) = Some (tasks s) /\
  loadTasks (saveTasks s store) s0 = Some (setTasks (tasks s) s0) /\
  tasks <$> loadTasks (saveTasks s store) s0 = Some (tasks s).
Proof.
  assert (H : loadTasks (saveTasks s store) s0 = Some (setTasks (tasks s) s0)).
  { unfold loadTasks, saveTasks. rewrite lookup_insert_eq, stringify_truthy.
    now rewrite JSONFacts.parse_stringify, tasks_of_json_of_tasks. }
  split; [apply JSONFacts.parse_stringify|].
  split; [apply tasks_of_json_of_tasks|].
  split; [exact H|]. now rewrite H.
Qed.

Example two_tasks_saved_and_loaded :
  let s := toggleTaskCompletion 1700000000000
             (addTask 1700000000001 (onChangeNewTask (JS.lit "  call \ Bob ")
               (addTask 1700000000000 (onChangeNewTask (JS.lit "write spec") initial)))) in
  tasks <$> loadTasks (saveTasks s ∅) initial
    = Some [mkTask 1700000000000 (JS.lit "write spec") true 0;
            mkTask 1700000000001 (JS.lit "  call \ Bob ") false 0].
Proof. vm_compute. reflexivity. Qed.

(** * Further properties of the component *)

(** ** Reset *)



(** ** Invariants of the clock *)

Lemma step_seconds_range (a : Action) (s : State) :
  0 <= seconds (time s) <= 59 ->
  0 <= seconds (time (fst (step a s))) <= 59.
Proof.
  intros H. destruct a; cbn; try exact H; try lia.
  - unfold tick. destruct (isActive s); [|exact H].
    destruct (Z.eqb_spec (seconds (time s)) 0) as [E|E].
    + destruct (JS.is_zero (minutes (time s))); cbn; [|lia].
      unfold handleTimerCompleteOf.
      destruct s as [t ac ty ts nt c cfg mu [cty ccfg cmu]]; cbn.
      destruct cty; cbn; lia.
    + cbn. lia.
  - unfold addTask. now destruct (JS.truthy _).
Qed.

(** X2: the seconds on the display stay between 0 and 59 whatever the user
    does and however often the interval fires. *)
Theorem seconds_stay_in_range (acts : list Action) (s : State) :
  0 <= seconds (time s) <= 59 ->
  0 <= seconds (time (fst (run acts s))) <= 59.
Proof.
  revert s; induction acts as [|a acts IH]; intros s H; [exact H|].
  cbn [run]. pose proof (step_seconds_range a s H) as Ha.
  destruct (step a s) as [s1 e1]. cbn [fst] in Ha.
  specialize (IH s1 Ha). now destruct (run acts s1).
Qed.

Lemma seconds_stay_in_range_witness :
  0 <= seconds (time initial) <= 59 /\
  0 <= seconds (time (fst (run [ToggleTimer; Tick; Tick; SwitchTimer longBreak; Tick]
                               initial))) <= 59.
Proof.
  split; [cbn; lia|].
  apply (seconds_stay_in_range _ initial). cbn; lia.
Defined.

Lemma tick_unreachable_zero (s : State) :
  isActive s = true -> unreachable_zero (minutes (time s)) ->
  snd (tick s) = [] /\
  isActive (fst (tick s)) = true /\
  unreachable_zero (minutes (time (fst (tick s)))) /\
  timerType (fst (tick s)) = timerType s /\
  completedPomodoros (fst (tick s)) = completedPomodoros s.
Proof.
  destruct s as [[mi se] ac ty ts nt c cfg mu cl]; cbn. intros -> Hm.
  unfold tick; cbn. destruct (se =? 0); [|now repeat split].
  destruct mi as [|m]; cbn in *; [now repeat split|].
  destruct (Z.eqb_spec m 0) as [->|_]; [lia|]. cbn. repeat split. lia.
Qed.

(** X3: a session whose minutes are [NaN] or negative (a cleared or negative
    settings field, then a switch or reset) never completes: however often
    the interval fires, the timer keeps running, no event occurs, and type
    and counter stay as they are. *)
Theorem session_with_bad_minutes_never_completes (n : nat) (s : State) :
  isActive s = true -> unreachable_zero (minutes (time s)) ->
  snd (ticks n s) = [] /\
  isActive (fst (ticks n s)) = true /\
  timerType (fst (ticks n s)) = timerType s /\
  completedPomodoros (fst (ticks n s)) = completedPomodoros s.
Proof.
  revert s; induction n as [|n IH]; intros s Ha Hm; [now repeat split|].
  cbn [ticks]. destruct (tick_unreachable_zero s Ha Hm) as (He & Ha1 & Hm1 & Hty & Hc).
  destruct (tick s) as [s1 e1]. cbn [fst snd] in *.
  destruct (IH s1 Ha1 Hm1) as (He2 & Ha2 & Hty2 & Hc2).
  destruct (ticks n s1) as [s2 e2]. cbn [fst snd] in *.
  subst. repeat split; congruence.
Qed.

Lemma session_with_bad_minutes_never_completes_witness :
  let s := toggleTimer (resetTimer (onChangeSetting work (JS.lit "") initial)) in
  (isActive s = true /\ minutes (time s) = JS.NaN) /\
  snd (ticks 200 s) = [] /\
  isActive (fst (ticks 200 s)) = true /\
  timerType (fst (ticks 200 s)) = timerType s /\
  completedPomodoros (fst (ticks 200 s)) = completedPomodoros s.
Proof.
  intros s. split; [split; reflexivity|].
  pose proof (session_with_bad_minutes_never_completes 200 s eq_refl I) as H.
  exact H.
Defined.



(** ** Sound and mute *)

Lemma completions_app (e1 e2 : list Event) :
  completions (e1 ++ e2) = (completions e1 + completions e2)%nat.
Proof. unfold completions. now rewrite List.filter_app, length_app. Qed.

Lemma notifications_app (e1 e2 : list Event) :
  notifications (e1 ++ e2) = (notifications e1 + notifications e2)%nat.
Proof. unfold notifications. now rewrite List.filter_app, length_app. Qed.

(** What one step emits: nothing, or one completion with a sound exactly
    when the callback of the running interval was not installed muted. *)
Lemma step_events (a : Action) (s : State) :
  snd (step a s) = [] \/
  isActive s = true /\
  exists k, snd (step a s)
            = SessionCompleted k :: (if closedMuted (interval s) then [] else [Notified]).
Proof.
  destruct a; cbn; auto.
  unfold tick. destruct (isActive s); auto.
  destruct (seconds (time s) =? 0); auto.
  destruct (JS.is_zero (minutes (time s))); auto.
  right. split; [reflexivity|]. exists (closedType (interval s)).
  unfold handleTimerCompleteOf. cbn.
  now destruct (closedMuted (interval s)).
Qed.

Lemma step_isMuted (a : Action) (s : State) :
  isMuted (fst (step a s)) = if is_toggleMute a then negb (isMuted s) else isMuted s.
Proof.
  destruct a; cbn; try reflexivity.
  - unfold tick. destruct (isActive s); [|reflexivity].
    destruct (seconds (time s) =? 0); [|reflexivity].
    destruct (JS.is_zero (minutes (time s))); [|reflexivity].
    unfold handleTimerCompleteOf.
    destruct s as [t ac ty ts nt c cfg mu [cty ccfg cmu]]; cbn.
    now destruct cty.
  - unfold addTask. now destruct (JS.truthy _).
Qed.

(** While the timer runs without a click on the mute button, the callback
    of the interval holds the current mute flag. *)
Lemma step_callback_muted (a : Action) (s : State) :
  is_toggleMute a = false -> callback_sees_mute s -> callback_sees_mute (fst (step a s)).
Proof.
  unfold callback_sees_mute. intros Ha H.
  destruct a; try discriminate Ha; cbn; try (now right); try exact H.
  - unfold tick. destruct (isActive s) eqn:E; [|now left].
    destruct (seconds (time s) =? 0); [|now right].
    destruct (JS.is_zero (minutes (time s))); [|now right].
    destruct (handleTimerCompleteOf _ _). now right.
  - unfold addTask. now destruct (JS.truthy _).
Qed.

(** X5: in every run a sound is played only together with a completion, so
    there are never more sounds than completions.  From a state that is
    paused, or whose interval was installed with the current mute flag, and
    as long as the mute button is not used, a muted component plays no sound
    at all and an unmuted one plays one per completion.  A click on the mute
    button at 0:00 comes too late for the completion that follows: the sound
    is played or not as the flag stood before the click. *)
Theorem sound_only_with_completion :
  (forall (acts : list Action) (s : State),
     (notifications (snd (run acts s)) <= completions (snd (run acts s)))%nat) /\
  (forall (acts : list Action) (s : State),
     callback_sees_mute s ->
     forallb (fun a => negb (is_toggleMute a)) acts = true ->
     notifications (snd (run acts s)) =
       if isMuted s then 0%nat else completions (snd (run acts s))) /\
  (forall s : State,
     isActive s = true -> time s = mkTime (JS.Int 0) 0 ->
     closedMuted (interval s) = isMuted s ->
     isMuted (fst (run [ToggleMute; Tick] s)) = negb (isMuted s) /\
     completions (snd (run [ToggleMute; Tick] s)) = 1%nat /\
     notifications (snd (run [ToggleMute; Tick] s)) = if isMuted s then 0%nat else 1%nat).
Proof.
  split; [|split].
  - intros acts; induction acts as [|a acts IH]; intros s; [reflexivity|].
    cbn [run]. pose proof (step_events a s) as He.
    destruct (step a s) as [s1 e1]. cbn [fst snd] in *.
    specialize (IH s1). destruct (run acts s1) as [s2 e2]. cbn [fst snd] in *.
    rewrite notifications_app, completions_app.
    destruct He as [->|(_ & k & ->)]; [exact IH|].
    destruct (closedMuted (interval s)); cbn; lia.
  - intros acts; induction acts as [|a acts IH]; intros s Hs Hacts.
    + now destruct (isMuted s).
    + cbn [run forallb] in *. apply andb_true_iff in Hacts as [Ha Hacts].
      apply negb_true_iff in Ha.
      pose proof (step_events a s) as He.
      pose proof (step_isMuted a s) as Hm. rewrite Ha in Hm.
      pose proof (step_callback_muted a s Ha Hs) as Hs1.
      destruct (step a s) as [s1 e1]. cbn [fst snd] in *.
      specialize (IH s1 Hs1 Hacts). destruct (run acts s1) as [s2 e2]. cbn [fst snd] in *.
      rewrite notifications_app, completions_app, IH, Hm.
      destruct He as [->|(Hact & k & ->)]; [reflexivity|].
      destruct Hs as [Hs|Hs]; [congruence|]. rewrite Hs.
      destruct (isMuted s); cbn; lia.
  - intros s Ha Ht Hmu. cbn [run step]. unfold toggleMute.
    rewrite tick_at_zero; [|exact Ha|exact Ht].
    unfold handleTimerCompleteOf, completions, notifications. cbn. rewrite Hmu.
    destruct (closedType (interval s)), (isMuted s); cbn; repeat split.
Qed.

Lemma sound_only_with_completion_witness :
  let acts := ToggleTimer :: SwitchTimer shortBreak :: repeat Tick 301 in
  let s := fst (ticks 1500 (fst (run [ToggleTimer] initial))) in
  (callback_sees_mute (toggleMute initial) /\
   forallb (fun a => negb (is_toggleMute a)) acts = true) /\
  (notifications (snd (run acts (toggleMute initial)))
     <= completions (snd (run acts (toggleMute initial))))%nat /\
  notifications (snd (run acts (toggleMute initial))) = 0%nat /\
  completions (snd (run acts (toggleMute initial))) = 1%nat /\
  (isActive s = true /\ time s = mkTime (JS.Int 0) 0 /\
   closedMuted (interval s) = isMuted s) /\
  isMuted (fst (run [ToggleMute; Tick] s)) = true /\
  notifications (snd (run [ToggleMute; Tick] s)) = 1%nat.
Proof.
  intros acts s.
  assert (Hs : callback_sees_mute (toggleMute initial)) by (left; reflexivity).
  assert (Hacts : forallb (fun a => negb (is_toggleMute a)) acts = true)
    by (vm_compute; reflexivity).
  assert (Ha : isActive s = true) by (vm_compute; reflexivity).
  assert (Ht : time s = mkTime (JS.Int 0) 0) by (vm_compute; reflexivity).
  assert (Hmu : closedMuted (interval s) = isMuted s) by (vm_compute; reflexivity).
  destruct sound_only_with_completion as (Hle & Heq & Hlate).
  destruct (Hlate s Ha Ht Hmu) as (H1 & _ & H2).
  split; [split; assumption|]. split; [exact (Hle acts (toggleMute initial))|].
  split; [exact (Heq acts (toggleMute initial) Hs Hacts)|].
  split; [vm_compute; reflexivity|].
  split; [repeat split; assumption|].
  split; [exact H1|exact H2].
Defined.

(** ** The long break *)

Lemma step_timerType (a : Action) (s : State) :
  timerType s <> longBreak -> asks_longBreak a = false ->
  timerType (fst (step a s)) <> longBreak.
Proof.
  intros Hs Ha. destruct a; cbn; try exact Hs.
  - unfold tick. destruct (isActive s); [|exact Hs].
    destruct (seconds (time s) =? 0); [|exact Hs].
    destruct (JS.is_zero (minutes (time s))); [|exact Hs].
    unfold handleTimerCompleteOf.
    destruct s as [t ac ty ts nt c cfg mu [cty ccfg cmu]]; cbn.
    now destruct cty.
  - destruct type; [discriminate..|]. discriminate Ha.
  - unfold addTask. now destruct (JS.truthy _).
Qed.

(** X6: the long break is never entered on its own: in a run that does not
    start in a long break and in which the Long Break button is not pressed,
    the timer type is never the long break, whatever completes. *)
Theorem longBreak_only_by_button (acts : list Action) (s : State) :
  timerType s <> longBreak ->
  forallb (fun a => negb (asks_longBreak a)) acts = true ->
  timerType (fst (run acts s)) <> longBreak.
Proof.
  revert s; induction acts as [|a acts IH]; intros s Hs Hacts; [exact Hs|].
  cbn [run forallb] in *. apply andb_true_iff in Hacts as [Ha Hacts].
  apply negb_true_iff in Ha.
  pose proof (step_timerType a s Hs Ha) as H1.
  destruct (step a s) as [s1 e1]. cbn [fst] in H1.
  specialize (IH s1 H1 Hacts). now destruct (run acts s1).
Qed.

Lemma longBreak_only_by_button_witness :
  let acts := ToggleTimer :: SwitchTimer shortBreak :: repeat Tick 302 in
  (timerType initial <> longBreak /\
   forallb (fun a => negb (asks_longBreak a)) acts = true) /\
  timerType (fst (run acts initial)) <> longBreak.
Proof.
  intros acts.
  assert (H1 : timerType initial <> longBreak) by discriminate.
  assert (H2 : forallb (fun a => negb (asks_longBreak a)) acts = true)
    by (vm_compute; reflexivity).
  split; [split; assumption|].
  exact (longBreak_only_by_button acts initial H1 H2).
Defined.

(** ** Clock and task list do not interfere *)

(** X7: an action of the task list (typing, adding, completing, counting,
    removing) never touches the clock: display, running flag, type, counter,
    settings and mute flag stay as they are and no event occurs.  Every
    other action, the firing of the interval included, leaves the task list
    and the text field as they are; and editing a setting leaves the session
    in progress (display, running flag, type) untouched. *)
Theorem clock_and_tasks_independent (a : Action) (s : State) :
  (if is_task_action a
   then snd (step a s) = [] /\
        time (fst (step a s)) = time s /\
        isActive (fst (step a s)) = isActive s /\
        timerType (fst (step a s)) = timerType s /\
        completedPomodoros (fst (step a s)) = completedPomodoros s /\
        timerSettings (fst (step a s)) = timerSettings s /\
        isMuted (fst (step a s)) = isMuted s
   else tasks (fst (step a s)) = tasks s /\ newTask (fst (step a s)) = newTask s) /\
  (forall key value,
     a = ChangeSetting key value ->
     time (fst (step a s)) = time s /\
     isActive (fst (step a s)) = isActive s /\
     timerType (fst (step a s)) = timerType s).
Proof.
  split.
  - destruct a; cbn [is_task_action step fst snd]; try (now repeat split).
    + unfold tick. destruct (isActive s); [|now split].
      destruct (seconds (time s) =? 0); [|now split].
      destruct (JS.is_zero (minutes (time s))); [|now split].
      unfold handleTimerCompleteOf.
      destruct s as [t ac ty ts nt c cfg mu [cty ccfg cmu]]; cbn.
      now destruct cty.
    + unfold addTask. destruct (JS.truthy _); now repeat split.
  - intros key value ->. now repeat split.
Qed.

Lemma clock_and_tasks_independent_witness :
  time (fst (step (ChangeSetting work (JS.lit "1")) (toggleTimer initial)))
    = mkTime (JS.Int 25) 0 /\
  isActive (fst (step (ChangeSetting work (JS.lit "1")) (toggleTimer initial))) = true /\
  timerType (fst (step (ChangeSetting work (JS.lit "1")) (toggleTimer initial))) = work.
Proof.
  destruct (clock_and_tasks_independent (ChangeSetting work (JS.lit "1"))
              (toggleTimer initial)) as [_ H].
  exact (H work (JS.lit "1") eq_refl).
Defined.

(** ** Composing the task handlers *)

Section TaskHandlers.

Implicit Types (ts : list Task) (i j : Z) (s : State).

Lemma setTasks_setTasks (a b : list Task) s : setTasks a (setTasks b s) = setTasks a s.
Proof. reflexivity. Qed.

Lemma flip_task_twice i (t : Task) : flip_task i (flip_task i t) = t.
Proof.
  unfold flip_task. destruct (Z.eqb_spec (id t) i) as [E|E]; cbn.
  - destruct (Z.eqb_spec (id t) i); [|contradiction].
    destruct t; cbn. now rewrite negb_involutive.
  - now destruct (Z.eqb_spec (id t) i).
Qed.

Lemma id_flip_task i (t : Task) : id (flip_task i t) = id t.
Proof. unfold flip_task. now destruct (id t =? i). Qed.

Lemma id_count_task i (t : Task) : id (count_task i t) = id t.
Proof. unfold count_task. now destruct (id t =? i). Qed.

Lemma flip_count_comm i j (t : Task) :
  flip_task i (count_task j t) = count_task j (flip_task i t).
Proof.
  unfold flip_task, count_task.
  destruct (id t =? i) eqn:Ei, (id t =? j) eqn:Ej; cbn; rewrite ?Ei, ?Ej; reflexivity.
Qed.

Lemma flip_flip_comm i j (t : Task) :
  flip_task i (flip_task j t) = flip_task j (flip_task i t).
Proof.
  unfold flip_task.
  destruct (id t =? i) eqn:Ei, (id t =? j) eqn:Ej; cbn; rewrite ?Ei, ?Ej; reflexivity.
Qed.

Lemma count_count_comm i j (t : Task) :
  count_task i (count_task j t) = count_task j (count_task i t).
Proof.
  unfold count_task.
  destruct (id t =? i) eqn:Ei, (id t =? j) eqn:Ej; cbn; rewrite ?Ei, ?Ej; reflexivity.
Qed.

(** Filtering on the id commutes with a map that keeps ids. *)
Lemma filter_map_id (f : Task -> Task) j ts :
  (forall t, id (f t) = id t) ->
  List.filter (other_than j) (map f ts) = map f (List.filter (other_than j) ts).
Proof.
  intros Hf. induction ts as [|t ts IH]; [reflexivity|]. cbn.
  assert (E : other_than j (f t) = other_than j t)
    by (unfold other_than; now rewrite Hf).
  rewrite E. destruct (other_than j t); cbn; now rewrite IH.
Qed.

Lemma filter_filter_comm i j ts :
  List.filter (other_than i) (List.filter (other_than j) ts) =
  List.filter (other_than j) (List.filter (other_than i) ts).
Proof.
  induction ts as [|t ts IH]; [reflexivity|]. cbn.
  destruct (other_than j t) eqn:Ej, (other_than i t) eqn:Ei; cbn;
    rewrite ?Ei, ?Ej, ?IH; reflexivity.
Qed.

Lemma filter_other_than_absent i ts : i ∉ ids (List.filter (other_than i) ts).
Proof.
  unfold ids. induction ts as [|t ts IH]; cbn; [apply not_elem_of_nil|].
  unfold other_than at 1. destruct (Z.eqb_spec (id t) i) as [E|E]; cbn; [exact IH|].
  apply not_elem_of_cons. split; [congruence|exact IH].
Qed.

Lemma filter_other_than_unknown i ts :
  i ∉ ids ts -> List.filter (other_than i) ts = ts.
Proof. apply filter_unknown_id. Qed.

Lemma filter_length_le (p : Task -> bool) ts :
  (length (List.filter p ts) <= length ts)%nat.
Proof. induction ts as [|t ts IH]; cbn; [lia|]. destruct (p t); cbn; lia. Qed.

Lemma filter_other_than_length i ts :
  NoDup (ids ts) -> i ∈ ids ts ->
  S (length (List.filter (other_than i) ts)) = length ts.
Proof.
  unfold other_than.
  induction ts as [|t ts IH]; cbn; [intros _ H; now apply elem_of_nil in H|].
  intros [Hnin Hnd]%NoDup_cons Hin.
  destruct (Z.eqb_spec (id t) i) as [E|E]; cbn.
  - subst i. now rewrite (filter_unknown_id _ _ Hnin).
  - apply elem_of_cons in Hin as [Hin|Hin]; [congruence|]. now rewrite IH.
Qed.

End TaskHandlers.

(** X8: completing is its own inverse: two clicks on the Complete button of
    the same task give back the state before the first one, for every id
    (present once, several times or not at all). *)
Theorem toggleTaskCompletion_twice (i : Z) (s : State) :
  toggleTaskCompletion i (toggleTaskCompletion i s) = s.
Proof.
  unfold toggleTaskCompletion. cbn [tasks setTasks].
  change (fun task : Task => if id task =? i
            then mkTask (id task) (text task) (negb (completed task)) (pomodoros task)
            else task) with (flip_task i).
  rewrite map_map. rewrite (map_ext _ (fun t => t) (flip_task_twice i)), map_id.
  now destruct s.
Qed.

(** X9: [removeTask] removes every task with the id: afterwards no task has
    it, removing it again changes nothing, and the list never grows; when
    the ids are pairwise distinct and the id is present, the list gets
    shorter by exactly one. *)
Theorem removeTask_removes_id (i : Z) (s : State) :
  (i ∉ ids (tasks (removeTask i s))) /\
  removeTask i (removeTask i s) = removeTask i s /\
  (length (tasks (removeTask i s)) <= length (tasks s))%nat /\
  (NoDup (ids (tasks s)) -> i ∈ ids (tasks s) ->
   S (length (tasks (removeTask i s))) = length (tasks s)).
Proof.
  unfold removeTask. cbn [tasks setTasks].
  change (fun task : Task => negb (id task =? i)) with (other_than i).
  split; [apply filter_other_than_absent|]. split.
  - rewrite (filter_other_than_unknown i _ (filter_other_than_absent i (tasks s))).
    reflexivity.
  - split; [apply filter_length_le|apply filter_other_than_length].
Qed.

Lemma removeTask_removes_id_witness :
  let s := addTask 8 (onChangeNewTask (JS.lit "B")
             (addTask 7 (onChangeNewTask (JS.lit "A") initial))) in
  (NoDup (ids (tasks s)) /\ 7 ∈ ids (tasks s)) /\
  S (length (tasks (removeTask 7 s))) = length (tasks s).
Proof.
  intros s.
  assert (Hnd : NoDup (ids (tasks s))).
  { cbn. apply NoDup_cons. split; [|apply NoDup_singleton].
    intros H%list_elem_of_singleton. discriminate. }
  assert (Hin : 7 ∈ ids (tasks s)) by (cbn; constructor).
  split; [split; assumption|].
  destruct (removeTask_removes_id 7 s) as (_ & _ & _ & H). exact (H Hnd Hin).
Defined.

(** X10: the task handlers can be applied in either order: completing or
    counting one id and completing, counting or removing another (or the
    same) id commute. *)
Theorem task_handlers_commute (i j : Z) (s : State) :
  toggleTaskCompletion i (toggleTaskCompletion j s)
    = toggleTaskCompletion j (toggleTaskCompletion i s) /\
  incrementTaskPomodoros i (incrementTaskPomodoros j s)
    = incrementTaskPomodoros j (incrementTaskPomodoros i s) /\
  toggleTaskCompletion i (incrementTaskPomodoros j s)
    = incrementTaskPomodoros j (toggleTaskCompletion i s) /\
  removeTask i (removeTask j s) = removeTask j (removeTask i s) /\
  removeTask j (toggleTaskCompletion i s) = toggleTaskCompletion i (removeTask j s) /\
  removeTask j (incrementTaskPomodoros i s) = incrementTaskPomodoros i (removeTask j s).
Proof.
  unfold toggleTaskCompletion, incrementTaskPomodoros, removeTask.
  cbn [tasks setTasks].
  change (fun task : Task => negb (id task =? i)) with (other_than i).
  change (fun task : Task => negb (id task =? j)) with (other_than j).
  change (fun task : Task => if id task =? i
            then mkTask (id task) (text task) (negb (completed task)) (pomodoros task)
            else task) with (flip_task i).
  change (fun task : Task => if id task =? j
            then mkTask (id task) (text task) (negb (completed task)) (pomodoros task)
            else task) with (flip_task j).
  change (fun task : Task => if id task =? i
            then mkTask (id task) (text task) (completed task) (pomodoros task + 1)
            else task) with (count_task i).
  change (fun task : Task => if id task =? j
            then mkTask (id task) (text task) (completed task) (pomodoros task + 1)
            else task) with (count_task j).
  rewrite !map_map.
  rewrite (map_ext _ _ (flip_flip_comm i j)), (map_ext _ _ (count_count_comm i j)),
    (map_ext _ _ (flip_count_comm i j)).
  rewrite (filter_filter_comm i j).
  rewrite (filter_map_id _ j _ (id_flip_task i)), (filter_map_id _ j _ (id_count_task i)).
  repeat split.
Qed.

(** ** Invariants of the task list and of the counter *)

Lemma step_keeps_tasks_ok (a : Action) (s : State) :
  Forall task_ok (tasks s) -> Forall task_ok (tasks (fst (step a s))).
Proof.
  intros H. destruct a; cbn [step fst]; try exact H.
  - unfold tick. destruct (isActive s); [|exact H].
    destruct (seconds (time s) =? 0); [|exact H].
    destruct (JS.is_zero (minutes (time s))); [|exact H].
    unfold handleTimerCompleteOf.
    destruct s as [t ac ty ts nt c cfg mu [cty ccfg cmu]]; cbn in *.
    now destruct cty.
  - unfold addTask. destruct (JS.truthy _) eqn:E; [|exact H].
    cbn [tasks setNewTask setTasks]. apply Forall_app. split; [exact H|].
    apply Forall_singleton. split; [exact E|cbn; lia].
  - unfold toggleTaskCompletion. cbn [tasks setTasks].
    induction H as [|t ts [Ht1 Ht2] Hts IH]; cbn; constructor; [|exact IH].
    destruct (id t =? i); split; assumption.
  - unfold incrementTaskPomodoros. cbn [tasks setTasks].
    induction H as [|t ts [Ht1 Ht2] Hts IH]; cbn; constructor; [|exact IH].
    destruct (id t =? i); split; cbn; try assumption; lia.
  - unfold removeTask. cbn [tasks setTasks].
    induction H as [|t ts Ht Hts IH]; cbn; [constructor|].
    destruct (negb _); [constructor|]; assumption.
Qed.

(** X11: in every run from a state whose tasks have a text that does not
    trim to the empty string and a count that is not negative (the initial
    state, with no task, is one) all tasks keep these two properties, and a
    counter of completed pomodoros that is not negative stays so. *)
Theorem tasks_stay_well_formed (acts : list Action) (s : State) :
  Forall task_ok (tasks s) -> 0 <= completedPomodoros s ->
  Forall task_ok (tasks (fst (run acts s))) /\
  0 <= completedPomodoros (fst (run acts s)).
Proof.
  intros Hts Hc. split.
  - revert s Hts Hc; induction acts as [|a acts IH]; intros s Hts Hc; [exact Hts|].
    cbn [run]. pose proof (step_keeps_tasks_ok a s Hts) as H1.
    pose proof (step_counter a s) as H2.
    destruct (step a s) as [s1 e1]. cbn [fst snd] in *.
    assert (Hc1 : 0 <= completedPomodoros s1) by lia.
    specialize (IH s1 H1 Hc1). now destruct (run acts s1).
  - rewrite run_counter. lia.
Qed.

Lemma tasks_stay_well_formed_witness :
  let acts := [ChangeNewTask (JS.lit " a "); AddTask 1; ChangeNewTask (JS.lit "  ");
               AddTask 2; IncrementTaskPomodoros 1; ToggleTaskCompletion 1] in
  (Forall task_ok (tasks initial) /\ 0 <= completedPomodoros initial) /\
  Forall task_ok (tasks (fst (run acts initial))) /\
  0 <= completedPomodoros (fst (run acts initial)) /\
  tasks (fst (run acts initial)) = [mkTask 1 (JS.lit " a ") true 1].
Proof.
  intros acts.
  assert (H1 : Forall task_ok (tasks initial)) by constructor.
  assert (H2 : 0 <= completedPomodoros initial) by (cbn; lia).
  destruct (tasks_stay_well_formed acts initial H1 H2) as [H3 H4].
  split; [split; assumption|]. split; [exact H3|]. split; [exact H4|reflexivity].
Defined.

(** ** The "Completed Tasks" figure *)

Lemma completed_count_flip (i : Z) (ts : list Task) (t : Task) :
  NoDup (ids ts) -> t ∈ ts -> id t = i ->
  (if completed t
   then S (length (List.filter (fun task => completed task) (map (flip_task i) ts)))
        = length (List.filter (fun task => completed task) ts)
   else length (List.filter (fun task => completed task) (map (flip_task i) ts))
        = S (length (List.filter (fun task => completed task) ts))).
Proof.
  intros Hnd Hin Hid. induction ts as [|u ts IH]; [now apply elem_of_nil in Hin|].
  cbn in Hnd. apply NoDup_cons in Hnd as [Hu Hnd].
  apply elem_of_cons in Hin as [<-|Hin].
  - assert (Hrest : map (flip_task i) ts = ts).
    { apply (map_unknown_id _ i); [|now rewrite <- Hid].
      intros v Hv. unfold flip_task. now destruct (Z.eqb_spec (id v) i). }
    cbn [map]. rewrite Hrest. unfold flip_task at 1 2. rewrite Hid, Z.eqb_refl.
    cbn [List.filter completed]. destruct t as [ti tt [] tp]; reflexivity.
  - assert (Hne : id u <> i).
    { intros E. apply Hu. rewrite E, <- Hid. now apply list_elem_of_fmap_2. }
    specialize (IH Hnd Hin). cbn [map]. unfold flip_task at 1 3.
    destruct (Z.eqb_spec (id u) i); [contradiction|].
    cbn [List.filter]. destruct (completed t), (completed u); cbn [length]; lia.
Qed.

(** X12: the "Completed Tasks" figure never exceeds the number of tasks and
    is not changed by adding a task; when the ids are pairwise distinct,
    clicking Complete on a task raises the figure by one if the task was
    open and lowers it by one if it was completed. *)
Theorem completedTasks_counts (s : State) :
  (completedTasks s <= length (tasks s))%nat /\
  (forall now, completedTasks (addTask now s) = completedTasks s) /\
  (forall (t : Task),
     NoDup (ids (tasks s)) -> t ∈ tasks s ->
     if completed t
     then S (completedTasks (toggleTaskCompletion (id t) s)) = completedTasks s
     else completedTasks (toggleTaskCompletion (id t) s) = S (completedTasks s)).
Proof.
  unfold completedTasks. split; [apply filter_length_le|]. split.
  - intros now. unfold addTask. destruct (JS.truthy _); [|reflexivity].
    cbn [tasks setNewTask setTasks]. rewrite List.filter_app, length_app. cbn. lia.
  - intros t Hnd Hin. unfold toggleTaskCompletion. cbn [tasks setTasks].
    exact (completed_count_flip (id t) (tasks s) t Hnd Hin eq_refl).
Qed.

Lemma completedTasks_counts_witness :
  let s := addTask 8 (onChangeNewTask (JS.lit "B")
             (addTask 7 (onChangeNewTask (JS.lit "A") initial))) in
  (NoDup (ids (tasks s)) /\ mkTask 7 (JS.lit "A") false 0 ∈ tasks s) /\
  completedTasks (toggleTaskCompletion 7 s) = S (completedTasks s).
Proof.
  intros s.
  assert (Hnd : NoDup (ids (tasks s))).
  { cbn. apply NoDup_cons. split; [|apply NoDup_singleton].
    intros H%list_elem_of_singleton. discriminate. }
  assert (Hin : mkTask 7 (JS.lit "A") false 0 ∈ tasks s) by (cbn; constructor).
  split; [split; assumption|].
  destruct (completedTasks_counts s) as (_ & _ & H).
  exact (H (mkTask 7 (JS.lit "A") false 0) Hnd Hin).
Defined.

(** ** Counting pomodoros on a task *)

Lemma tasks_incrementTimes (n : nat) (i : Z) (s : State) :
  tasks (incrementTimes n i s) =
    map (fun task =>
           if id task =? i
           then mkTask (id task) (text task) (completed task)
                       (pomodoros task + Z.of_nat n)
           else task) (tasks s).
Proof.
  revert s; induction n as [|n IH]; intros s.
  - cbn [incrementTimes]. symmetry. rewrite <- (map_id (tasks s)) at 2.
    apply map_ext. intros [ti tt tc tp]; cbn.
    destruct (ti =? i); [|reflexivity]. f_equal. lia.
  - cbn [incrementTimes]. rewrite IH. unfold incrementTaskPomodoros.
    cbn [tasks setTasks]. rewrite map_map. apply map_ext.
    intros [ti tt tc tp]; cbn.
    destruct (ti =? i) eqn:E; cbn; rewrite E; [|reflexivity]. f_equal. lia.
Qed.

(** X13: [n] clicks on the +1 button of a task add exactly [n] to the count
    of every task with that id and change nothing else: the other tasks,
    the texts, the completed flags, the order, and the rest of the state. *)
Theorem incrementTaskPomodoros_n_times (n : nat) (i : Z) (s : State) :
  incrementTimes n i s =
    setTasks
      (map (fun task =>
              if id task =? i
              then mkTask (id task) (text task) (completed task)
                          (pomodoros task + Z.of_nat n)
              else task) (tasks s)) s.
Proof.
  rewrite <- tasks_incrementTimes.
  revert s; induction n as [|n IH]; intros s; cbn [incrementTimes].
  - now destruct s.
  - rewrite IH. unfold incrementTaskPomodoros. reflexivity.
Qed.

(** ** Reading numbers back *)

Section ParseInt.

Lemma sign_match (s1 : JS.str) :
  match s1 with
  | 45%N :: r => (-1, r)
  | 43%N :: r => (1, r)
  | _ => (1, s1)
  end =
  match s1 with
  | c :: r => if (c =? 45)%N then (-1, r) else if (c =? 43)%N then (1, r) else (1, s1)
  | [] => (1, s1)
  end.
Proof.
  destruct s1 as [|[|p] r]; try reflexivity.
  repeat (destruct p as [p|p|]; try reflexivity).
Qed.

Lemma prefix_match (s2 : JS.str) :
  match s2 with
  | 48%N :: x :: r => if ((x =? 120) || (x =? 88))%N then (16, r) else (10, s2)
  | _ => (10, s2)
  end =
  match s2 with
  | c :: x :: r =>
      if ((c =? 48) && ((x =? 120) || (x =? 88)))%N then (16, r) else (10, s2)
  | _ => (10, s2)
  end.
Proof.
  destruct s2 as [|[|p] [|x r]]; try reflexivity;
    repeat (destruct p as [p|p|]; try reflexivity).
Qed.

Lemma digit_decimal (c : N) :
  JSON.is_digit c = true -> JS.digit 10 c = Some (Z.of_N c - 48).
Proof.
  unfold JSON.is_digit, JS.digit. intros H. rewrite H.
  apply andb_true_iff in H as [H1 H2]. apply N.leb_le in H1, H2.
  destruct (Z.ltb_spec (Z.of_N c - 48) 10); [reflexivity|lia].
Qed.

Lemma digit_cut_off (c : N) :
  c = 46%N \/ c = 101%N \/ c = 69%N -> JS.digit 10 c = None.
Proof. intros [->|[->| ->]]; reflexivity. Qed.

Lemma digits_decimal (ds rest : JS.str) (a : N) :
  forallb JSON.is_digit ds = true -> cut_off rest ->
  JS.digits 10 (Some (Z.of_N a)) (ds ++ rest) = Some (Z.of_N (JSON.val_digits a ds)).
Proof.
  revert a; induction ds as [|c ds IH]; intros a Hds Hrest.
  - destruct rest as [|c r]; [reflexivity|]. cbn [app JS.digits].
    now rewrite (digit_cut_off c Hrest).
  - cbn in Hds. apply andb_true_iff in Hds as [Hc Hds].
    cbn [app JS.digits]. rewrite (digit_decimal c Hc). cbn [from_option]. unfold Datatypes.id.
    unfold JSON.is_digit in Hc. apply andb_true_iff in Hc as [H1 H2].
    apply N.leb_le in H1, H2.
    replace (Z.of_N a * 10 + (Z.of_N c - 48)) with (Z.of_N (a * 10 + (c - 48))) by lia.
    rewrite IH by assumption. reflexivity.
Qed.

(** The digits [Number.prototype.toString] writes for [n], read in radix
    10 with whatever [parseInt] stops at behind them. *)
Lemma digits_print (n : N) (rest : JS.str) :
  cut_off rest ->
  exists c r,
    JSON.digits_of (S (N.to_nat (N.log2 n))) n = c :: r /\
    JSON.is_digit c = true /\
    (c = 48%N -> r = []) /\
    JS.digits 10 None ((c :: r) ++ rest) = Some (Z.of_N n).
Proof.
  intros Hrest.
  destruct (JSONFacts.digits_of_spec _ _ (JSONFacts.print_fuel n) ltac:(discriminate))
    as (Hall & Hval & c & r & Heq & Hz & Hnz).
  exists c, r. rewrite Heq in *. cbn in Hall. apply andb_true_iff in Hall as [Hc Hr].
  split; [reflexivity|]. split; [exact Hc|]. split.
  - intros ->. destruct (N.eq_dec n 0%N) as [E|E]; [now destruct (Hz E)|].
    now apply Hnz in E.
  - cbn [app JS.digits]. rewrite (digit_decimal c Hc). cbn [from_option].
    pose proof Hc as Hc'. unfold JSON.is_digit in Hc'.
    apply andb_true_iff in Hc' as [H1 H2]. apply N.leb_le in H1, H2.
    replace (0 * 10 + (Z.of_N c - 48)) with (Z.of_N (c - 48)) by lia.
    rewrite digits_decimal by assumption. do 2 f_equal.
    unfold JSON.val_digits in *. cbn in Hval. exact Hval.
Qed.

Lemma is_digit_facts (c : N) :
  JSON.is_digit c = true ->
  JS.is_space c = false /\ (c =? 45)%N = false /\ (c =? 43)%N = false.
Proof.
  unfold JSON.is_digit, JS.is_space. intros [H1 H2]%andb_true_iff.
  apply N.leb_le in H1, H2.
  repeat match goal with
    | |- context [N.eqb ?a ?b] => destruct (N.eqb_spec a b); try lia
    | |- context [N.leb ?a ?b] => destruct (N.leb_spec a b); try lia
    end; cbn; auto.
Qed.

(** [parseInt] with its two case distinctions written as comparisons. *)
Lemma parseInt_cases (s : JS.str) :
  JS.parseInt s =
    let '(sign, s2) :=
      match JS.trimStart s with
      | c :: r =>
          if (c =? 45)%N then (-1, r)
          else if (c =? 43)%N then (1, r) else (1, JS.trimStart s)
      | [] => (1, JS.trimStart s)
      end in
    let '(radix, s3) :=
      match s2 with
      | c :: x :: r =>
          if ((c =? 48) && ((x =? 120) || (x =? 88)))%N then (16, r) else (10, s2)
      | _ => (10, s2)
      end in
    match JS.digits radix None s3 with
    | Some v => JS.Int (sign * v)
    | None => JS.NaN
    end.
Proof.
  unfold JS.parseInt. cbv zeta. rewrite sign_match.
  destruct (match JS.trimStart s with
            | [] => (1, JS.trimStart s)
            | c :: r => _
            end) as [sign s2].
  now rewrite prefix_match.
Qed.

Lemma parseInt10_cases (s : JS.str) :
  Text.parseInt10 s =
    let '(sign, s2) :=
      match JS.trimStart s with
      | c :: r =>
          if (c =? 45)%N then (-1, r)
          else if (c =? 43)%N then (1, r) else (1, JS.trimStart s)
      | [] => (1, JS.trimStart s)
      end in
    match JS.digits 10 None s2 with
    | Some v => JS.Int (sign * v)
    | None => JS.NaN
    end.
Proof. unfold Text.parseInt10. cbv zeta. now rewrite sign_match. Qed.

(** A text that begins with a decimal digit and has no [0x] in front, with
    and without a minus sign before it. *)
Lemma parseInt_of_digits (c : N) (t : JS.str) (v : Z) :
  JSON.is_digit c = true ->
  (c = 48%N -> match t with x :: _ => x <> 120%N /\ x <> 88%N | [] => True end) ->
  JS.digits 10 None (c :: t) = Some v ->
  (JS.parseInt (c :: t) = JS.Int v /\ Text.parseInt10 (c :: t) = JS.Int v) /\
  (JS.parseInt (45%N :: c :: t) = JS.Int (- v) /\
   Text.parseInt10 (45%N :: c :: t) = JS.Int (- v)).
Proof.
  intros Hc Hx Hd. destruct (is_digit_facts c Hc) as (Hsp & H45 & H43).
  rewrite !parseInt_cases, !parseInt10_cases. cbn [JS.trimStart].
  rewrite Hsp. change (JS.is_space 45) with false. cbv beta iota zeta.
  change ((45 =? 45)%N) with true. rewrite H45, H43. cbv beta iota zeta.
  assert (Hpre : (c =? 48)%N = false \/
                 match t with
                 | x :: _ => (x =? 120)%N = false /\ (x =? 88)%N = false
                 | [] => True
                 end).
  { destruct (N.eqb_spec c 48) as [E|E]; [right|now left].
    specialize (Hx E). destruct t as [|x r]; [exact I|].
    destruct Hx as [H1 H2]. now apply N.eqb_neq in H1, H2. }
  destruct t as [|x r].
  - rewrite Hd. repeat split; f_equal; lia.
  - assert (E : ((c =? 48) && ((x =? 120) || (x =? 88)))%N = false).
    { destruct Hpre as [->|[-> ->]]; [reflexivity|apply andb_false_r]. }
    rewrite E, Hd. repeat split; f_equal; lia.
Qed.

Lemma parseInt_print (z : Z) (rest : JS.str) :
  cut_off rest ->
  JS.parseInt (JSON.print_num z ++ rest) = JS.Int z /\
  Text.parseInt10 (JSON.print_num z ++ rest) = JS.Int z.
Proof.
  intros Hrest. unfold JSON.print_num.
  destruct (digits_print (Z.abs_N z) rest Hrest) as (c & r & -> & Hc & H48 & Hd).
  cbn [app] in Hd.
  assert (Hx : c = 48%N ->
               match r ++ rest with x :: _ => x <> 120%N /\ x <> 88%N | [] => True end).
  { intros E. rewrite (H48 E). cbn. destruct rest as [|x ?]; [exact I|].
    cbn in Hrest. destruct Hrest as [->|[->| ->]]; split; discriminate. }
  destruct (parseInt_of_digits c (r ++ rest) _ Hc Hx Hd) as [[P1 P2] [N1 N2]].
  destruct (Z.ltb_spec z 0) as [Hneg|Hpos]; cbn [app].
  - rewrite N1, N2. split; f_equal; lia.
  - rewrite P1, P2. split; f_equal; lia.
Qed.

End ParseInt.

(** X14: [parseInt] reads back what [toString] writes: for every integer
    that JavaScript numbers hold exactly (up to 2^53 either way), parsing
    its decimal text gives the integer, with or without the radix argument,
    and a decimal point or an exponent typed behind the digits is cut off
    with all that follows.  So the settings field stores exactly the integer
    whose digits are typed, and 1.9 or 1e3 are stored as 1. *)
Theorem parseInt_reads_toString (z : Z) (rest : JS.str) :
  JS.exact z -> cut_off rest ->
  JS.parseInt (Text.toString (JS.Int z) ++ rest) = JS.Int z /\
  Text.parseInt10 (Text.toString (JS.Int z) ++ rest) = JS.Int z /\
  forall (key : TimerType) (s : State),
    get_setting (timerSettings (onChangeSetting key (Text.toString (JS.Int z) ++ rest) s)) key
      = JS.Int z.
Proof.
  intros _ Hrest. destruct (parseInt_print z rest Hrest) as [H1 H2].
  split; [exact H1|]. split; [exact H2|]. intros key s.
  unfold onChangeSetting. cbn [timerSettings setTimerSettings].
  rewrite get_put_setting, decide_True by reflexivity. exact H1.
Qed.

Lemma parseInt_reads_toString_witness :
  (JS.exact 1 /\ cut_off (JS.lit ".9")) /\
  JS.parseInt (Text.toString (JS.Int 1) ++ JS.lit ".9") = JS.Int 1 /\
  Text.parseInt10 (Text.toString (JS.Int 1) ++ JS.lit ".9") = JS.Int 1 /\
  get_setting (timerSettings (onChangeSetting shortBreak (JS.lit "1.9") initial)) shortBreak
    = JS.Int 1.
Proof.
  assert (Hz : JS.exact 1) by (unfold JS.exact; lia).
  assert (H : cut_off (JS.lit ".9")) by (left; reflexivity).
  destruct (parseInt_reads_toString 1 (JS.lit ".9") Hz H) as (H1 & H2 & H3).
  split; [split; assumption|]. split; [exact H1|]. split; [exact H2|].
  exact (H3 shortBreak initial).
Defined.

(** ** Persistence of counter and settings *)

Section Storage.

Lemma keys_distinct :
  JS.lit "pomodoro-tasks" <> JS.lit "completed-pomodoros" /\
  JS.lit "pomodoro-tasks" <> JS.lit "timer-settings" /\
  JS.lit "completed-pomodoros" <> JS.lit "timer-settings".
Proof. repeat split; discriminate. Qed.

Lemma toString_truthy (z : Z) : JS.truthy (Text.toString (JS.Int z)) = true.
Proof. cbn. now destruct (JSONFacts.print_num_head z) as (c & r & -> & _). Qed.

Lemma parseInt10_toString (z : Z) :
  Text.parseInt10 (Text.toString (JS.Int z)) = JS.Int z.
Proof.
  destruct (parseInt_print z [] I) as [_ H]. now rewrite app_nil_r in H.
Qed.

Lemma loadCompletedPomodoros_insert (z : Z) (store : Storage) (s0 : State) :
  loadCompletedPomodoros
    (<[JS.lit "completed-pomodoros" := Text.toString (JS.Int z)]> store) s0
  = Some (setCompletedPomodoros z s0).
Proof.
  unfold loadCompletedPomodoros.
  now rewrite lookup_insert_eq, toString_truthy, parseInt10_toString.
Qed.

Lemma settings_of_json_of_settings (cfg : TimerSettings.t) :
  all_integers cfg -> settings_of_json (json_of_settings cfg) = Some cfg.
Proof.
  intros H. pose proof (H work) as Hw. pose proof (H shortBreak) as Hs.
  pose proof (H longBreak) as Hl. destruct cfg as [[|w] [|sb] [|lb]]; cbn in *;
    try contradiction; reflexivity.
Qed.

Lemma loadTimerSettings_insert (cfg : TimerSettings.t) (store : Storage) (s0 : State) :
  loadTimerSettings
    (<[JS.lit "timer-settings" := JSON.stringify (json_of_settings cfg)]> store) s0
  = match settings_of_json (json_of_settings cfg) with
    | Some cfg' => Some (setTimerSettings cfg' s0)
    | None => None
    end.
Proof.
  unfold loadTimerSettings.
  now rewrite lookup_insert_eq, stringify_truthy, JSONFacts.parse_stringify.
Qed.

Lemma loadTasks_insert (ts : list Task) (store : Storage) (s0 : State) :
  loadTasks (<[JS.lit "pomodoro-tasks" := JSON.stringify (json_of_tasks ts)]> store) s0
  = Some (setTasks ts s0).
Proof.
  unfold loadTasks.
  now rewrite lookup_insert_eq, stringify_truthy, JSONFacts.parse_stringify,
    tasks_of_json_of_tasks.
Qed.

End Storage.

(** X15: the counter of completed pomodoros survives a reload: what the save
    effect writes under "completed-pomodoros" is never the empty string, and
    the mount effect reads the same integer back, zero and negative numbers
    included. *)
Theorem completedPomodoros_round_trip (s s0 : State) (store : Storage) :
  JS.truthy (Text.toString (JS.Int (completedPomodoros s))) = true /\
  loadCompletedPomodoros (saveCompletedPomodoros s store) s0
    = Some (setCompletedPomodoros (completedPomodoros s) s0).
Proof.
  split; [apply toString_truthy|]. apply loadCompletedPomodoros_insert.
Qed.

(** X16: the three save effects write three different keys, and when every
    configured duration is an integer the mount effect run over what they
    wrote restores tasks, counter and settings together, whatever else the
    store holds and whatever state it is run in. *)
Theorem persist_then_mount (s s0 : State) (store : Storage) :
  all_integers (timerSettings s) ->
  mountEffect (persist s store) s0
    = Some (setTimerSettings (timerSettings s)
              (setCompletedPomodoros (completedPomodoros s)
                 (setTasks (tasks s) s0))).
Proof.
  intros Hcfg. destruct keys_distinct as (K1 & K2 & K3).
  unfold mountEffect, persist.
  assert (H1 : loadTasks (saveTimerSettings s (saveCompletedPomodoros s (saveTasks s store))) s0
               = Some (setTasks (tasks s) s0)).
  { unfold loadTasks, saveTimerSettings, saveCompletedPomodoros.
    rewrite !lookup_insert_ne by congruence. apply loadTasks_insert. }
  rewrite H1.
  assert (H2 : loadCompletedPomodoros
                 (saveTimerSettings s (saveCompletedPomodoros s (saveTasks s store)))
                 (setTasks (tasks s) s0)
               = Some (setCompletedPomodoros (completedPomodoros s) (setTasks (tasks s) s0))).
  { unfold loadCompletedPomodoros, saveTimerSettings.
    rewrite lookup_insert_ne by congruence. apply loadCompletedPomodoros_insert. }
  rewrite H2. unfold saveTimerSettings.
  now rewrite loadTimerSettings_insert, settings_of_json_of_settings.
Qed.

Lemma persist_then_mount_witness :
  let s := onChangeSetting work (JS.lit "50")
             (incrementTaskPomodoros 7 (addTask 7 (onChangeNewTask (JS.lit "A") initial))) in
  all_integers (timerSettings s) /\
  mountEffect (persist s ∅) initial = Some s.
Proof.
  intros s.
  assert (H : all_integers (timerSettings s)) by (intros []; discriminate).
  split; [exact H|]. exact (persist_then_mount s initial ∅ H).
Defined.

Lemma unsaved_lookup (store : Storage) (key : JS.str) :
  unsaved store key ->
  match store !! key with
  | Some saved => JS.truthy saved = false
  | None => True
  end.
Proof.
  unfold unsaved. destruct (store !! key) as [saved|]; [|trivial].
  intros [H|H]; [discriminate|]. injection H as ->. reflexivity.
Qed.

(** X17: a key that is missing from the store, or holds the empty string,
    is skipped by the mount effect, whatever the other keys hold: the part
    of the effect that reads it leaves the state as it is.  With the three
    keys the effect reads so, the state is the one the effect started with
    (on a first visit, the defaults), whatever else the store holds. *)
Theorem mount_without_saved_data (store : Storage) (s : State) :
  (unsaved store (JS.lit "pomodoro-tasks") -> loadTasks store s = Some s) /\
  (unsaved store (JS.lit "completed-pomodoros") -> loadCompletedPomodoros store s = Some s) /\
  (unsaved store (JS.lit "timer-settings") -> loadTimerSettings store s = Some s) /\
  ((forall key, key ∈ storage_keys -> unsaved store key) -> mountEffect store s = Some s).
Proof.
  assert (H1 : unsaved store (JS.lit "pomodoro-tasks") -> loadTasks store s = Some s).
  { intros H%unsaved_lookup. unfold loadTasks.
    destruct (store !! JS.lit "pomodoro-tasks"); [now rewrite H|reflexivity]. }
  assert (H2 : unsaved store (JS.lit "completed-pomodoros") ->
               loadCompletedPomodoros store s = Some s).
  { intros H%unsaved_lookup. unfold loadCompletedPomodoros.
    destruct (store !! JS.lit "completed-pomodoros"); [now rewrite H|reflexivity]. }
  assert (H3 : unsaved store (JS.lit "timer-settings") -> loadTimerSettings store s = Some s).
  { intros H%unsaved_lookup. unfold loadTimerSettings.
    destruct (store !! JS.lit "timer-settings"); [now rewrite H|reflexivity]. }
  repeat split; try assumption.
  intros H. unfold mountEffect.
  rewrite H1, H2 by (apply H; unfold storage_keys; set_solver).
  apply H3, H. unfold storage_keys. set_solver.
Qed.

Lemma mount_without_saved_data_witness :
  let store : Storage :=
    <[JS.lit "theme" := JS.lit "dark"]> (<[JS.lit "timer-settings" := []]> ∅) in
  (forall key, key ∈ storage_keys -> unsaved store key) /\
  store !! JS.lit "theme" = Some (JS.lit "dark") /\
  mountEffect store initial = Some initial.
Proof.
  intros store.
  assert (H : forall key, key ∈ storage_keys -> unsaved store key).
  { intros key Hkey. unfold storage_keys in Hkey.
    apply elem_of_cons in Hkey as [->|Hkey]; [left; reflexivity|].
    apply elem_of_cons in Hkey as [->|Hkey]; [left; reflexivity|].
    apply elem_of_cons in Hkey as [->|Hkey]; [right; reflexivity|].
    now apply elem_of_nil in Hkey. }
  destruct (mount_without_saved_data store initial) as (_ & _ & _ & Hall).
  split; [exact H|]. split; [reflexivity|]. exact (Hall H).
Defined.

(** X18: a duration that is [NaN] (its field was cleared) does not survive
    saving: the text written under "timer-settings" parses, but holds [null]
    under the key of that duration, so what the mount effect reads back is
    not the configuration that was saved, and no configuration of numbers. *)
Theorem NaN_duration_saved_as_null (s s0 : State) (store : Storage) (k : TimerType) :
  get_setting (timerSettings s) k = JS.NaN ->
  exists ms,
    saveTimerSettings s store !! JS.lit "timer-settings" = Some (JSON.stringify (JSON.Obj ms)) /\
    JSON.parse (JSON.stringify (JSON.Obj ms)) = Some (JSON.Obj ms) /\
    property (TimerType_name k) ms = Some JSON.Null /\
    loadTimerSettings (saveTimerSettings s store) s0 = None.
Proof.
  intros Hk. unfold saveTimerSettings.
  exists [(JS.lit "work", json_of_number (TimerSettings.work (timerSettings s)));
          (JS.lit "shortBreak", json_of_number (TimerSettings.shortBreak (timerSettings s)));
          (JS.lit "longBreak", json_of_number (TimerSettings.longBreak (timerSettings s)))].
  split; [apply lookup_insert_eq|]. split; [apply JSONFacts.parse_stringify|].
  rewrite loadTimerSettings_insert.
  destruct (timerSettings s) as [w sb lb]. destruct k; cbn in Hk; subst;
    [destruct sb, lb|destruct w, lb|destruct w, sb]; split; reflexivity.
Qed.

Lemma NaN_duration_saved_as_null_witness :
  let s := onChangeSetting longBreak (JS.lit "") initial in
  get_setting (timerSettings s) longBreak = JS.NaN /\
  exists ms,
    saveTimerSettings s ∅ !! JS.lit "timer-settings" = Some (JSON.stringify (JSON.Obj ms)) /\
    JSON.parse (JSON.stringify (JSON.Obj ms)) = Some (JSON.Obj ms) /\
    property (TimerType_name longBreak) ms = Some JSON.Null /\
    loadTimerSettings (saveTimerSettings s ∅) initial = None.
Proof.
  intros s. split; [reflexivity|].
  exact (NaN_duration_saved_as_null s initial ∅ longBreak eq_refl).
Defined.

(** ** The clock face *)

Section ClockFace.

Lemma length_fill (n : nat) (filler : JS.str) :
  filler <> [] -> length (take n (concat (replicate n filler))) = n.
Proof.
  intros Hf. apply length_take_le.
  assert (H : forall k, length (concat (replicate k filler)) = (k * length filler)%nat).
  { induction k as [|k IH]; [reflexivity|].
    change (replicate (S k) filler) with (filler :: replicate k filler).
    cbn [concat]. rewrite length_app, IH. lia. }
  rewrite H. destruct filler; [contradiction|]. cbn [length]. nia.
Qed.

Lemma fill_from_filler (n : nat) (filler : JS.str) :
  Forall (fun c => c ∈ filler) (take n (concat (replicate n filler))).
Proof.
  apply Forall_take, Forall_concat, Forall_replicate, Forall_forall. auto.
Qed.

Lemma padStart_spec (n : nat) (filler s : JS.str) :
  filler <> [] ->
  exists p,
    Text.padStart n filler s = p ++ s /\
    Forall (fun c => c ∈ filler) p /\
    length (Text.padStart n filler s) = Nat.max n (length s).
Proof.
  intros Hf. unfold Text.padStart.
  destruct (Nat.leb_spec n (length s)) as [Hle|Hlt].
  - exists []. split; [reflexivity|]. split; [constructor|lia].
  - destruct filler as [|c f] eqn:E; [contradiction|]. rewrite <- E in *.
    exists (take (n - length s) (concat (replicate (n - length s) filler))).
    split; [reflexivity|]. split; [apply fill_from_filler|].
    rewrite length_app, length_fill by assumption. lia.
Qed.

Lemma pad_two_digits (z : Z) :
  0 <= z < 100 ->
  Text.padStart 2 (JS.lit "0") (Text.toString (JS.Int z)) = two_digits (Z.to_nat z).
Proof.
  intros Hz.
  assert (H : forallb (fun n => bool_decide
                (Text.padStart 2 (JS.lit "0") (Text.toString (JS.Int (Z.of_nat n)))
                 = two_digits n)) (seq 0 100) = true) by (vm_compute; reflexivity).
  rewrite forallb_forall in H. specialize (H (Z.to_nat z)).
  rewrite Z2Nat.id in H by lia. apply bool_decide_eq_true in H; [exact H|].
  apply in_seq. lia.
Qed.

End ClockFace.

(** X19: for minutes from 0 to 99 and seconds from 0 to 59 the clock face
    is exactly five characters: the two decimal digits of the minutes, a
    colon, the two decimal digits of the seconds, with a leading zero where
    the number has one digit; so is what the component shows in every state
    with that time. *)
Theorem formatTime_two_digits (m sec : Z) :
  0 <= m < 100 -> 0 <= sec < 60 ->
  formatTime (JS.Int m) (JS.Int sec) =
    [Z.to_N (48 + m / 10); Z.to_N (48 + m mod 10); 58%N;
     Z.to_N (48 + sec / 10); Z.to_N (48 + sec mod 10)] /\
  forall s : State,
    time s = mkTime (JS.Int m) sec ->
    display s =
      [Z.to_N (48 + m / 10); Z.to_N (48 + m mod 10); 58%N;
       Z.to_N (48 + sec / 10); Z.to_N (48 + sec mod 10)].
Proof.
  intros Hm Hs.
  assert (H : formatTime (JS.Int m) (JS.Int sec) =
    [Z.to_N (48 + m / 10); Z.to_N (48 + m mod 10); 58%N;
     Z.to_N (48 + sec / 10); Z.to_N (48 + sec mod 10)]).
  { unfold formatTime.
    rewrite (pad_two_digits m), (pad_two_digits sec) by lia.
    unfold two_digits. cbn [app JS.lit map String.list_ascii_of_string].
    assert (Hdiv : forall z, 0 <= z ->
              N.of_nat (48 + Z.to_nat z / 10) = Z.to_N (48 + z / 10) /\
              N.of_nat (48 + Z.to_nat z mod 10) = Z.to_N (48 + z mod 10)).
    { intros z Hz. assert (Ez : z = Z.of_nat (Z.to_nat z)) by lia.
      revert Ez. generalize (Z.to_nat z). intros n ->.
      change 10 with (Z.of_nat 10).
      rewrite <- Nat2Z.inj_div, <- Nat2Z.inj_mod. split; lia. }
    destruct (Hdiv m ltac:(lia)) as [-> ->]. destruct (Hdiv sec ltac:(lia)) as [-> ->].
    reflexivity. }
  split; [exact H|]. intros s Ht. unfold display. now rewrite Ht.
Qed.

Lemma formatTime_two_digits_witness :
  (0 <= 4 < 100 /\ 0 <= 59 < 60) /\
  formatTime (JS.Int 4) (JS.Int 59) = JS.lit "04:59" /\
  display (setTime (mkTime (JS.Int 4) 59) initial) = JS.lit "04:59".
Proof.
  destruct (formatTime_two_digits 4 59 ltac:(lia) ltac:(lia)) as [H1 H2].
  split; [lia|]. split; [exact H1|].
  exact (H2 (setTime (mkTime (JS.Int 4) 59) initial) eq_refl).
Defined.

(** X20: the clock face never drops a character of minutes or seconds: it
    is the text of the minutes, a colon and the text of the seconds, each
    with nothing but zeros in front and each at least two characters long;
    this holds for minutes above 99, negative numbers and [NaN] as well. *)
Theorem formatTime_never_truncates (x y : JS.number) :
  exists pm ps,
    formatTime x y = (pm ++ Text.toString x) ++ JS.lit ":" ++ (ps ++ Text.toString y) /\
    Forall (fun c => c = 48%N) pm /\ Forall (fun c => c = 48%N) ps /\
    length (pm ++ Text.toString x) = Nat.max 2 (length (Text.toString x)) /\
    length (ps ++ Text.toString y) = Nat.max 2 (length (Text.toString y)).
Proof.
  assert (Hf : JS.lit "0" <> []) by discriminate.
  destruct (padStart_spec 2 (JS.lit "0") (Text.toString x) Hf) as (pm & Em & Fm & Lm).
  destruct (padStart_spec 2 (JS.lit "0") (Text.toString y) Hf) as (ps & Es & Fs & Ls).
  exists pm, ps. unfold formatTime. rewrite Em, Es in *.
  split; [reflexivity|].
  assert (Hz : forall p, Forall (fun c => c ∈ JS.lit "0") p -> Forall (fun c => c = 48%N) p).
  { intros p Hp. eapply Forall_impl; [exact Hp|].
    intros c Hc. now apply list_elem_of_singleton in Hc. }
  repeat split; auto.
Qed.

(** ** The first version *)

Section BasicVersion.

Lemma basic_ticks_app (n k : nat) (b : Basic.State) :
  Basic.ticks (n + k) b = Basic.ticks k (Basic.ticks n b).
Proof. revert b; induction n as [|n IH]; intros b; [reflexivity|]. cbn. apply IH. Qed.

Lemma basic_ticks_paused (n : nat) (m sec : Z) :
  Basic.ticks n (Basic.mkState m sec false) = Basic.mkState m sec false.
Proof. induction n as [|n IH]; [reflexivity|]. cbn. exact IH. Qed.

Lemma basic_ticks_seconds (n : nat) (m : Z) :
  Basic.ticks n (Basic.mkState m (Z.of_nat n) true) = Basic.mkState m 0 true.
Proof.
  induction n as [|n IH]; [reflexivity|].
  cbn [Basic.ticks]. unfold Basic.tick. cbn [Basic.isActive Basic.seconds Basic.minutes].
  destruct (Z.ltb_spec 0 (Z.of_nat (S n))); [|lia].
  replace (Z.of_nat (S n) - 1) with (Z.of_nat n) by lia. exact IH.
Qed.

Lemma basic_ticks_minutes (m : nat) :
  Basic.ticks (m * 60) (Basic.mkState (Z.of_nat m) 0 true) = Basic.mkState 0 0 true.
Proof.
  induction m as [|m IH]; [reflexivity|].
  replace (S m * 60)%nat with (1 + (59 + m * 60))%nat by lia.
  rewrite basic_ticks_app. cbn [Basic.ticks]. unfold Basic.tick at 1.
  cbn [Basic.isActive Basic.seconds Basic.minutes Z.ltb Z.compare].
  destruct (Z.ltb_spec 0 (Z.of_nat (S m))); [|lia].
  rewrite basic_ticks_app.
  replace (Z.of_nat (S m) - 1) with (Z.of_nat m) by lia.
  change (Basic.mkState (Z.of_nat m) 59 true)
    with (Basic.mkState (Z.of_nat m) (Z.of_nat 59) true).
  rewrite (basic_ticks_seconds 59 (Z.of_nat m)). exact IH.
Qed.

Lemma basic_ticks_to_zero (m sec : Z) :
  0 <= m -> 0 <= sec ->
  Basic.ticks (Z.to_nat (m * 60 + sec)) (Basic.mkState m sec true) = Basic.mkState 0 0 true.
Proof.
  intros Hm Hs.
  replace (Z.to_nat (m * 60 + sec)) with (Z.to_nat sec + Z.to_nat m * 60)%nat by lia.
  rewrite basic_ticks_app.
  rewrite <- (Z2Nat.id sec Hs) at 2. rewrite basic_ticks_seconds.
  rewrite <- (Z2Nat.id m Hm) at 2. apply basic_ticks_minutes.
Qed.

(** While the display is not 0:00, the first and the last version count
    the same second. *)
Lemma tick_like_basic (s : State) (m sec : Z) :
  isActive s = true -> time s = mkTime (JS.Int m) sec -> 0 <= m -> 0 <= sec ->
  0 < m * 60 + sec ->
  exists m' sec',
    Basic.tick (Basic.mkState m sec true) = Basic.mkState m' sec' true /\
    tick s = (installInterval (setTime (mkTime (JS.Int m') sec') s), []) /\
    0 <= m' /\ 0 <= sec' /\ m' * 60 + sec' = m * 60 + sec - 1.
Proof.
  intros Ha Ht Hm Hs Hpos. unfold tick, Basic.tick. rewrite Ha, Ht.
  cbn [Basic.isActive Basic.seconds Basic.minutes seconds minutes JS.is_zero JS.pred].
  destruct (Z.eqb_spec sec 0) as [->|Hne].
  - destruct (Z.eqb_spec m 0) as [->|Hm0]; [lia|].
    cbn [Z.ltb Z.compare]. destruct (Z.ltb_spec 0 m); [|lia].
    exists (m - 1), 59. repeat split; try reflexivity; lia.
  - destruct (Z.ltb_spec 0 sec); [|lia].
    exists m, (sec - 1). repeat split; try reflexivity; lia.
Qed.

End BasicVersion.

(** X21: the first version counts a running [m:sec] down to 0:00 in
    [m*60+sec] firings and is still running then; the next firing stops it,
    and it stays stopped at 0:00 however often the interval would fire:
    there is no completion handler in this version. *)
Theorem basic_countdown_stops_at_zero (m sec : Z) (k : nat) :
  0 <= m -> 0 <= sec ->
  Basic.ticks (Z.to_nat (m * 60 + sec)) (Basic.mkState m sec true)
    = Basic.mkState 0 0 true /\
  Basic.ticks (Z.to_nat (m * 60 + sec) + 1 + k) (Basic.mkState m sec true)
    = Basic.mkState 0 0 false.
Proof.
  intros Hm Hs. split; [now apply basic_ticks_to_zero|].
  rewrite <- Nat.add_assoc, basic_ticks_app, basic_ticks_to_zero by assumption.
  cbn. apply basic_ticks_paused.
Qed.

Lemma basic_countdown_stops_at_zero_witness :
  (0 <= 25 /\ 0 <= 0) /\
  Basic.ticks 1500 (Basic.toggleTimer Basic.initial) = Basic.mkState 0 0 true /\
  Basic.ticks (1500 + 1 + 10) (Basic.toggleTimer Basic.initial) = Basic.mkState 0 0 false.
Proof.
  split; [lia|].
  exact (basic_countdown_stops_at_zero 25 0 10 ltac:(lia) ltac:(lia)).
Defined.

(** X22: up to the moment the display reaches 0:00 the first version and
    the version with settings show the same time after the same number of
    firings, are both still running, and nothing has completed. *)
Theorem basic_and_final_count_alike (n : nat) (s : State) (m sec : Z) :
  isActive s = true -> time s = mkTime (JS.Int m) sec -> 0 <= m -> 0 <= sec ->
  (n <= Z.to_nat (m * 60 + sec))%nat ->
  time (fst (ticks n s))
    = mkTime (JS.Int (Basic.minutes (Basic.ticks n (Basic.mkState m sec true))))
             (Basic.seconds (Basic.ticks n (Basic.mkState m sec true))) /\
  isActive (fst (ticks n s)) = true /\
  Basic.isActive (Basic.ticks n (Basic.mkState m sec true)) = true /\
  snd (ticks n s) = [].
Proof.
  revert s m sec; induction n as [|n IH]; intros s m sec Ha Ht Hm Hs Hn.
  - cbn. now rewrite Ht, Ha.
  - destruct (tick_like_basic s m sec Ha Ht Hm Hs ltac:(lia))
      as (m' & sec' & Hb & Hf & Hm' & Hs' & Hrem).
    rewrite ticks_S, Hf. cbn [Basic.ticks]. rewrite Hb.
    specialize (IH (installInterval (setTime (mkTime (JS.Int m') sec') s)) m' sec'
                   Ha eq_refl Hm' Hs' ltac:(lia)).
    destruct (ticks n (installInterval (setTime (mkTime (JS.Int m') sec') s))) as [s2 e2].
    cbn [fst snd] in *. exact IH.
Qed.

Lemma basic_and_final_count_alike_witness :
  (isActive (toggleTimer initial) = true /\
   time (toggleTimer initial) = mkTime (JS.Int 25) 0 /\
   (90 <= Z.to_nat (25 * 60 + 0))%nat) /\
  time (fst (ticks 90 (toggleTimer initial))) = mkTime (JS.Int 23) 30 /\
  isActive (fst (ticks 90 (toggleTimer initial))) = true /\
  Basic.isActive (Basic.ticks 90 (Basic.mkState 25 0 true)) = true /\
  snd (ticks 90 (toggleTimer initial)) = [].
Proof.
  assert (Hn : (90 <= Z.to_nat (25 * 60 + 0))%nat) by (vm_compute; lia).
  split; [repeat split; exact Hn|].
  pose proof (basic_and_final_count_alike 90 (toggleTimer initial) 25 0
                eq_refl eq_refl ltac:(lia) ltac:(lia) Hn) as H.
  exact H.
Defined.

(** ** The versions with fixed durations *)

Section FixedVersions.

Lemma fixed_step_like_final (a : Fixed.Action) (s : State) :
  timerSettings s = defaultSettings -> isMuted s = false -> callback_current s ->
  Fixed.step a (without_settings s)
    = (without_settings (fst (step (with_settings a) s)), snd (step (with_settings a) s)) /\
  timerSettings (fst (step (with_settings a) s)) = defaultSettings /\
  isMuted (fst (step (with_settings a) s)) = false /\
  callback_current (fst (step (with_settings a) s)).
Proof.
  destruct s as [t ac ty ts nt c cfg mu cl]. unfold callback_current.
  cbn [timerSettings isMuted isActive interval].
  intros -> -> Hcl. destruct a; cbn [with_settings step Fixed.step fst snd].
  - unfold tick, Fixed.tick, without_settings. cbn.
    destruct ac; [|now repeat split].
    destruct Hcl as [Hcl| ->]; [discriminate|].
    destruct (seconds t =? 0); [|repeat split; now right].
    destruct (JS.is_zero (minutes t)); [|repeat split; now right].
    destruct ty; repeat split; now right.
  - repeat split; now right.
  - destruct type; repeat split; now right.
  - destruct ty; repeat split; now right.
  - now repeat split.
  - unfold addTask, Fixed.addTask, without_settings.
    cbn [newTask Fixed.newTask].
    destruct (JS.truthy (JS.trim nt)); now repeat split.
  - now repeat split.
  - now repeat split.
  - now repeat split.
Qed.

Lemma run_Tick (n : nat) (s : State) : run (repeat Tick n) s = ticks n s.
Proof.
  revert s; induction n as [|n IH]; intros s; [reflexivity|].
  cbn [repeat run ticks step]. destruct (tick s) as [s1 e1]. now rewrite IH.
Qed.

Lemma fixed_run_like_final (acts : list Fixed.Action) (s : State) :
  timerSettings s = defaultSettings -> isMuted s = false -> callback_current s ->
  Fixed.run acts (without_settings s)
    = (without_settings (fst (run (map with_settings acts) s)),
       snd (run (map with_settings acts) s)) /\
  timerSettings (fst (run (map with_settings acts) s)) = defaultSettings /\
  isMuted (fst (run (map with_settings acts) s)) = false /\
  callback_current (fst (run (map with_settings acts) s)).
Proof.
  revert s; induction acts as [|a acts IH]; intros s Hcfg Hmu Hcl; [now repeat split|].
  cbn [map run Fixed.run].
  destruct (fixed_step_like_final a s Hcfg Hmu Hcl) as (Hstep & Hcfg1 & Hmu1 & Hcl1).
  rewrite Hstep. destruct (step (with_settings a) s) as [s1 e1]. cbn [fst snd] in *.
  destruct (IH s1 Hcfg1 Hmu1 Hcl1) as (-> & IH2).
  now destruct (run (map with_settings acts) s1).
Qed.

End FixedVersions.

(** X23: the two versions with fixed durations behave as the version with
    settings does at its default settings and unmuted, started paused or
    with an interval installed at these values: action by action they reach
    the same display, running flag, type, tasks, text field and counter, and
    produce the same events; and the version with settings stays at its
    defaults, unmuted, with such an interval. *)
Theorem fixed_versions_are_default_settings (acts : list Fixed.Action) (s : State) :
  timerSettings s = defaultSettings -> isMuted s = false -> callback_current s ->
  Fixed.run acts (without_settings s)
    = (without_settings (fst (run (map with_settings acts) s)),
       snd (run (map with_settings acts) s)) /\
  timerSettings (fst (run (map with_settings acts) s)) = defaultSettings /\
  isMuted (fst (run (map with_settings acts) s)) = false /\
  callback_current (fst (run (map with_settings acts) s)).
Proof. apply fixed_run_like_final. Qed.

Lemma fixed_versions_are_default_settings_witness :
  let acts := [Fixed.ChangeNewTask (JS.lit "A"); Fixed.AddTask 7; Fixed.ToggleTimer;
               Fixed.Tick; Fixed.SwitchTimer longBreak; Fixed.ResetTimer] in
  (timerSettings initial = defaultSettings /\ isMuted initial = false /\
   callback_current initial) /\
  Fixed.run acts Fixed.initial
    = (without_settings (fst (run (map with_settings acts) initial)),
       snd (run (map with_settings acts) initial)) /\
  fst (Fixed.run acts Fixed.initial)
    = Fixed.mkState (mkTime (JS.Int 15) 0) false longBreak
        [mkTask 7 (JS.lit "A") false 0] [] 0.
Proof.
  intros acts.
  assert (Hcl : callback_current initial) by (left; reflexivity).
  split; [repeat split; exact Hcl|].
  destruct (fixed_versions_are_default_settings acts initial eq_refl eq_refl Hcl) as [H _].
  split; [exact H|reflexivity].
Defined.

(** X24: the versions with fixed durations complete as the version with
    settings does: from a running [m:sec], [m*60+sec] firings only reach
    0:00, and with one more (and any number after it) the session has
    completed exactly once, with its sound, the timer is paused on the next
    type at 25, 5 or 15 minutes, and the counter is one higher after a work
    session. *)
Theorem fixed_versions_complete_one_tick_late (f : Fixed.State) (m sec : Z) (k : nat) :
  Fixed.isActive f = true -> Fixed.time f = mkTime (JS.Int m) sec -> 0 <= m -> 0 <= sec ->
  let n := Z.to_nat (m * 60 + sec) in
  let next := match Fixed.timerType f with work => shortBreak | _ => work end in
  Fixed.run (repeat Fixed.Tick n) f
    = (Fixed.mkState (mkTime (JS.Int 0) 0) true (Fixed.timerType f) (Fixed.tasks f)
         (Fixed.newTask f) (Fixed.completedPomodoros f), []) /\
  Fixed.run (repeat Fixed.Tick (n + 1 + k)) f
    = (Fixed.mkState (mkTime (Fixed.timerDurations next) 0) false next (Fixed.tasks f)
         (Fixed.newTask f)
         (Fixed.completedPomodoros f
            + match Fixed.timerType f with work => 1 | _ => 0 end),
       [SessionCompleted (Fixed.timerType f); Notified]).
Proof.
  intros Ha Ht Hm Hs n next.
  set (s := mkState (Fixed.time f) (Fixed.isActive f) (Fixed.timerType f) (Fixed.tasks f)
              (Fixed.newTask f) (Fixed.completedPomodoros f) defaultSettings false
              (mkClosure (Fixed.timerType f) defaultSettings false)).
  assert (Hf : without_settings s = f) by (now destruct f).
  assert (Hcl : callback_current s) by (now right).
  assert (Hmap : forall j, map with_settings (repeat Fixed.Tick j) = repeat Tick j).
  { induction j as [|j IH]; [reflexivity|]. cbn. now rewrite IH. }
  assert (Hrun : forall j, Fixed.run (repeat Fixed.Tick j) f
                           = (without_settings (fst (ticks j s)), snd (ticks j s))).
  { intros j. rewrite <- Hf at 1.
    destruct (fixed_run_like_final (repeat Fixed.Tick j) s eq_refl eq_refl Hcl) as [-> _].
    now rewrite Hmap, run_Tick. }
  rewrite !Hrun. subst n. rewrite (ticks_to_zero s m sec Ha Ht Hm Hs).
  pose proof (ticks_past_zero s m sec k Ha Ht Hm Hs) as E. cbv zeta in E. rewrite E.
  cbn [fst snd].
  replace (interval (reinstalled (Z.to_nat (m * 60 + sec)) s)) with (snapshot s)
    by (now destruct (Z.to_nat (m * 60 + sec))).
  replace (without_settings
             (reinstalled (Z.to_nat (m * 60 + sec)) (setTime (mkTime (JS.Int 0) 0) s)))
    with (without_settings (setTime (mkTime (JS.Int 0) 0) s))
    by (now destruct (Z.to_nat (m * 60 + sec))).
  clear Hcl Hrun E Hf. subst s next. destruct f as [t ac ty ts nt c]. cbn in *. subst ac.
  unfold handleTimerCompleteOf. cbn. split; [reflexivity|].
  destruct ty; cbn; rewrite ?Z.add_0_r; reflexivity.
Qed.

Lemma fixed_versions_complete_one_tick_late_witness :
  (Fixed.isActive (Fixed.toggleTimer Fixed.initial) = true /\
   Fixed.time (Fixed.toggleTimer Fixed.initial) = mkTime (JS.Int 25) 0) /\
  Fixed.run (repeat Fixed.Tick 1500) (Fixed.toggleTimer Fixed.initial)
    = (Fixed.mkState (mkTime (JS.Int 0) 0) true work [] [] 0, []) /\
  Fixed.run (repeat Fixed.Tick (1500 + 1 + 0)) (Fixed.toggleTimer Fixed.initial)
    = (Fixed.mkState (mkTime (JS.Int 5) 0) false shortBreak [] [] 1,
       [SessionCompleted work; Notified]).
Proof.
  split; [split; reflexivity|].
  exact (fixed_versions_complete_one_tick_late (Fixed.toggleTimer Fixed.initial) 25 0 0
           eq_refl eq_refl ltac:(lia) ltac:(lia)).
Defined.
